(** * Entity disambiguation and clarification-reply resolution

    Shallow embedding of the two Python routines documented in the
    repository's resolution notes:

    - [_disambiguate_player] of [backend/app/analytics/entity_resolver.py]
      (season-activity based player disambiguation), and
    - the clarification-context block at the head of [understand_node] in
      [backend/app/agent/graph.py] (matching a user's reply against the
      candidates of the previous clarification question).

    Python [str] values are lists of characters; the model covers ASCII
    text (case folding and white space are the ASCII fragments of
    [str.lower] and [str.isspace]).  Python dictionaries with string keys
    are [gmap string _]; a key that may be missing is an [option]. *)

From Stdlib Require Import List Ascii String Bool Arith Lia.
From stdpp Require Import base option list gmap strings.
Import ListNotations.

Local Open Scope string_scope.
Local Open Scope list_scope.

(** Python [str]: a sequence of characters. *)
Abbreviation str := (list ascii).

(** A string literal as a Python [str]. *)
Definition txt (s : string) : str := list_ascii_of_string s.

(** ** Python built-ins used by the two routines *)

Module Py.

(** [str.isspace] on one ASCII character: TAB, LF, VT, FF, CR, the four
    separators FS GS RS US, and the blank. *)
Definition is_space (c : ascii) : bool :=
  let n := nat_of_ascii c in
  (((9 <=? n) && (n <=? 13)) || ((28 <=? n) && (n <=? 32)))%nat.

(** [str.lower] on one ASCII character. *)
Definition lower_char (c : ascii) : ascii :=
  let n := nat_of_ascii c in
  if ((65 <=? n) && (n <=? 90))%nat then ascii_of_nat (n + 32) else c.

(** [s.lower()] *)
Definition lower (s : str) : str := map lower_char s.

(** [s.lstrip()] *)
Fixpoint lstrip (s : str) : str :=
  match s with
  | [] => []
  | c :: s' => if is_space c then lstrip s' else s
  end.

(** [s.rstrip()] *)
Definition rstrip (s : str) : str := rev (lstrip (rev s)).

(** [s.strip()] *)
Definition strip (s : str) : str := rstrip (lstrip s).

(** [s.startswith(p)] *)
Fixpoint startswith (p s : str) : bool :=
  match p, s with
  | [], _ => true
  | _ :: _, [] => false
  | a :: p', b :: s' => (a =? b)%char && startswith p' s'
  end.

(** [needle in hay] for two strings: substring test. *)
Fixpoint contains (needle hay : str) : bool :=
  startswith needle hay ||
  match hay with
  | [] => false
  | _ :: hay' => contains needle hay'
  end.

(** [s.replace(old, '')]: the occurrences of [old] are found from left to
    right without overlap and deleted.  [fuel] bounds the scan; the
    length of [s] is enough. *)
Fixpoint delete_all_fuel (fuel : nat) (old s : str) : str :=
  match fuel with
  | O => s
  | S fuel' =>
      match s with
      | [] => []
      | c :: s' =>
          if startswith old s
          then delete_all_fuel fuel' old (skipn (length old) s)
          else c :: delete_all_fuel fuel' old s'
      end
  end.

Definition delete_all (old s : str) : str :=
  match old with
  | [] => s
  | _ :: _ => delete_all_fuel (length s) old s
  end.

(** [s.split()]: the maximal runs of non-blank characters.  [cur] is the
    run being read, most recent character first. *)
Fixpoint split_ws_from (cur : str) (s : str) : list str :=
  match s with
  | [] => match cur with [] => [] | _ :: _ => [rev cur] end
  | c :: s' =>
      if is_space c
      then match cur with
           | [] => split_ws_from [] s'
           | _ :: _ => rev cur :: split_ws_from [] s'
           end
      else split_ws_from (c :: cur) s'
  end.

Definition split_ws (s : str) : list str := split_ws_from [] s.

(** [s.split(sep)] for a one-character separator: every separator cuts,
    empty fields are kept, and the result is never the empty list. *)
Fixpoint split_on (sep : ascii) (s : str) : list str :=
  match s with
  | [] => [[]]
  | c :: s' =>
      if (c =? sep)%char then [] :: split_on sep s'
      else match split_on sep s' with
           | w :: ws => (c :: w) :: ws
           | [] => [[c]]
           end
  end.

(** [sep.join(parts)] *)
Fixpoint join (sep : str) (parts : list str) : str :=
  match parts with
  | [] => []
  | [p] => p
  | p :: rest => p ++ sep ++ join sep rest
  end.

(** [x in xs] for a list of strings. *)
Definition in_list (x : str) (xs : list str) : bool :=
  existsb (fun y => bool_decide (x = y)) xs.

(** Two hexadecimal digits, as [repr] prints them in an escape. *)
Definition hex_digit (n : nat) : ascii :=
  if (n <? 10)%nat then ascii_of_nat (48 + n) else ascii_of_nat (87 + n).

Definition backslash : ascii := ascii_of_nat 92.
Definition squote : ascii := ascii_of_nat 39.
Definition dquote : ascii := ascii_of_nat 34.

(** [repr(s)] of a string, one character at a time: [quote] is the quote
    character chosen for the whole literal.  The backslash and the chosen
    quote are escaped, TAB, LF and CR print as their letter escapes, the
    other control characters in hexadecimal. *)
Definition repr_char (quote : ascii) (c : ascii) : str :=
  let n := nat_of_ascii c in
  if (c =? backslash)%char then [backslash; backslash]
  else if (c =? quote)%char then [backslash; c]
  else if (n =? 9)%nat then [backslash; "t"%char]
  else if (n =? 10)%nat then [backslash; "n"%char]
  else if (n =? 13)%nat then [backslash; "r"%char]
  else if ((n <? 32) || (n =? 127))%nat
       then [backslash; "x"%char; hex_digit (n / 16); hex_digit (n mod 16)]
  else [c].

Definition has_char (c : ascii) (s : str) : bool :=
  existsb (fun d => (c =? d)%char) s.

(** [repr(s)]: single quotes, unless the text has a single quote and no
    double quote. *)
Definition repr_str (s : str) : str :=
  let quote : ascii :=
    if has_char squote s && negb (has_char dquote s) then dquote else squote in
  quote :: concat (map (repr_char quote) s) ++ [quote].

(** [str(xs)] of a list of strings, as an f-string field prints it. *)
Definition repr_list (xs : list str) : str :=
  txt "[" ++ join (txt ", ") (map repr_str xs) ++ txt "]".

End Py.

(** ** [entity_resolver.py]: season-activity disambiguation *)

Module EntityResolver.

(** The exceptions the routine can end with: the [NeedsClarification] it
    raises itself, and the [IndexError] of indexing an empty list. *)
Inductive PyException : Type :=
  | NeedsClarification (message : str)
  | IndexError.

(** How a call ends: with a returned value or with a raised exception. *)
Inductive outcome (A : Type) : Type :=
  | Returns (value : A)
  | Raises (e : PyException).

Arguments Returns {A} value.
Arguments Raises {A} e.

(** [xs[0]] *)
Definition item0 {A : Type} (xs : list A) : outcome A :=
  match xs with
  | x :: _ => Returns x
  | [] => Raises IndexError
  end.

Section Disambiguation.

(** The two storage queries the routine calls; players are the name
    strings that the clarification message joins. *)
Variable query_players_like : str -> list str.
Variable has_stats_in_season : str -> list str -> bool.

(** The f-string carried by [NeedsClarification]. *)
Definition clarification_message
    (player_name : str) (seasons : list str) (active_players : list str) : str :=
  txt "Multiple players named '" ++ player_name ++ txt "' were active in "
    ++ Py.repr_list seasons ++ txt ": "
    ++ Py.join (txt ", ") active_players
    ++ txt ". Which player did you mean?".

(** Modelled from the spec: the name [single_match] returned for a sole
    match is not bound in the excerpt; by rule 3 of the disambiguator
    (exactly one candidate resolves to it) it is that one match,
    [all_matches[0]]. *)
Definition single_match (all_matches : list str) : outcome str :=
  item0 all_matches.

Definition _disambiguate_player (player_name : str) (seasons : list str)
    : outcome str :=
  let all_matches := query_players_like player_name in
  if (length all_matches =? 1)%nat then single_match all_matches
  else
    let active_players :=
      List.filter (fun p => has_stats_in_season p seasons) all_matches in
    if (length active_players =? 1)%nat then item0 active_players
    else if (length active_players =? 0)%nat then item0 all_matches
    else Raises (NeedsClarification
                   (clarification_message player_name seasons active_players)).

End Disambiguation.

End EntityResolver.

(** ** [graph.py]: the clarification-context block of [understand_node] *)

Module Graph.

(** [QueryIntent]: the block only names [SIMPLE_STAT]; [OTHER_INTENT]
    stands for the enumeration's remaining members. *)
Inductive QueryIntent : Type :=
  | SIMPLE_STAT
  | OTHER_INTENT (name : string).

(** One entry of the conversation history, a dictionary read through
    [msg.get]: a missing key is [None]. *)
Record Message : Type := {
  msg_role : option str;
  msg_content : option str;
  msg_entities : option (gmap string (list str))
}.

(** The keys of the agent state the block reads or writes. *)
Record AgentState : Type := {
  conversation_history : list Message;
  user_query : str;
  entities : option (gmap string (list str));
  intent : option QueryIntent;
  requires_visualization : option bool;
  needs_clarification : option bool
}.

(** [for msg in reversed(history): if msg.get("role") == r: ...; break] *)
Definition last_with_role (r : str) (history : list Message) : option Message :=
  List.find (fun msg => bool_decide (msg_role msg = Some r)) (rev history).

(** *** Candidate extraction: [re.search(r':\s*([^.]+?)\.\s*which', content,
    re.IGNORECASE)] *)

(** The text up to the first full stop, and the text after it. *)
Fixpoint upto_dot (s : str) : option (str * str) :=
  match s with
  | [] => None
  | c :: s' =>
      if (c =? ".")%char then Some ([], s')
      else match upto_dot s' with
           | Some (before, after) => Some (c :: before, after)
           | None => None
           end
  end.

(** A match that starts at a colon, given the text after the colon.  The
    group cannot hold a full stop and is followed by one, so it ends at
    the first full stop; blanks and [which] (any case) must follow.  The
    greedy [\s*] leaves the group the text after the leading blanks, or
    the last blank when there is nothing else. *)
Definition match_after_colon (rest : str) : option str :=
  match upto_dot rest with
  | Some (before, after) =>
      if Py.startswith (txt "which") (Py.lower (Py.lstrip after))
      then match before with
           | [] => None
           | _ :: _ =>
               match Py.lstrip before with
               | [] => Some [List.last before " "%char]
               | g => Some g
               end
           end
      else None
  | None => None
  end.

(** [match.group(1)] of the leftmost match, if any. *)
Fixpoint search_candidates_str (content : str) : option str :=
  match content with
  | [] => None
  | c :: rest =>
      if (c =? ":")%char
      then match match_after_colon rest with
           | Some g => Some g
           | None => search_candidates_str rest
           end
      else search_candidates_str rest
  end.

(** [[name.strip() for name in candidates_str.split(',')]] *)
Definition split_candidates (candidates_str : str) : list str :=
  map Py.strip (Py.split_on ","%char candidates_str).

(** *** Matching the reply *)

Definition fillers : list str :=
  [txt " please"; txt " thanks"; txt " pls"; txt " thx"; txt ","; txt ".";
   txt " ?"].

(** [user_response_cleaned] *)
Definition clean_user_response (user_query : str) : str :=
  let user_response := Py.strip (Py.lower user_query) in
  let user_response_cleaned :=
    fold_left (fun cleaned filler => Py.delete_all filler cleaned)
              fillers user_response in
  Py.strip user_response_cleaned.

(** The body of the loop over the candidates: does this candidate join
    [potential_matches]? *)
Definition candidate_matches (user_response_cleaned candidate : str) : bool :=
  let candidate_lower := Py.lower candidate in
  if bool_decide (user_response_cleaned = candidate_lower) then true
  else
    let user_words := Py.split_ws user_response_cleaned in
    let candidate_words := Py.split_ws candidate_lower in
    if (length user_words =? 1)%nat
    then match user_words with
         | word :: _ => Py.in_list word candidate_words
         | [] => false
         end
    else forallb (fun word => Py.in_list word candidate_words) user_words.

Definition potential_matches (candidates : list str) (user_query : str)
    : list str :=
  List.filter (candidate_matches (clean_user_response user_query)) candidates.

(** The reply resolves to [matched_candidate] only when exactly one
    candidate matched. *)
Definition resolve_reply (candidates : list str) (user_query : str)
    : option str :=
  match potential_matches candidates user_query with
  | [matched_candidate] => Some matched_candidate
  | _ => None
  end.

(** *** The state written on a match *)

(** [if original_entities.get(key): entities[key] = original_entities[key]] *)
Definition carry_over (key : string)
    (original_entities ents : gmap string (list str)) : gmap string (list str) :=
  match original_entities !! key with
  | Some (x :: xs) => <[key := x :: xs]> ents
  | _ => ents
  end.

(** The dictionary literal assigned to [state["entities"]]. *)
Definition fresh_entities (matched_candidate : str) : gmap string (list str) :=
  <["players" := [matched_candidate]]>
    (<["teams" := []]> (<["seasons" := []]> (<["metrics" := []]>
      (<["rounds" := []]> ∅)))).

Definition resolved_entities (matched_candidate : str)
    (history : list Message) : gmap string (list str) :=
  let ents := fresh_entities matched_candidate in
  match last_with_role (txt "user") history with
  | Some original_user_msg =>
      let original_entities := default ∅ (msg_entities original_user_msg) in
      carry_over "metrics" original_entities
        (carry_over "seasons" original_entities ents)
  | None => ents
  end.

(** The block itself.  [Some state'] is the early [return state]; [None]
    means the node goes on to its ordinary entity extraction. *)
Definition understand_node (state : AgentState) : option AgentState :=
  let history := conversation_history state in
  if (2 <=? length history)%nat then
    match last_with_role (txt "assistant") history with
    | Some last_assistant_msg =>
        let content := default [] (msg_content last_assistant_msg) in
        if Py.contains (txt "which player did you mean?") (Py.lower content)
           || Py.contains (txt "which team did you mean?") (Py.lower content)
        then
          match search_candidates_str content with
          | Some candidates_str =>
              let candidates := split_candidates candidates_str in
              match resolve_reply candidates (user_query state) with
              | Some matched_candidate =>
                  Some {| conversation_history := history;
                          user_query := user_query state;
                          entities :=
                            Some (resolved_entities matched_candidate history);
                          intent := Some SIMPLE_STAT;
                          requires_visualization := Some false;
                          needs_clarification := Some false |}
              | None => None
              end
          | None => None
          end
        else None
    | None => None
    end
  else None.

End Graph.

(** ** The specification's vocabulary *)

Module Spec.

(** A token is present as a whole word inside a candidate's display
    name. *)
Definition whole_word (token display_name : str) : Prop :=
  In token (Py.split_ws (Py.lower display_name)).

(** The three matching rules of the reply resolver, stated on the
    normalized reply: exact equality with the normalized display name, a
    single token that is a whole word of it, or every token a whole word
    of it. *)
Definition reply_matches (normalized_reply candidate : str) : Prop :=
  normalized_reply = Py.lower candidate
  \/ (exists token, Py.split_ws normalized_reply = [token]
                    /\ whole_word token candidate)
  \/ Forall (fun token => whole_word token candidate)
            (Py.split_ws normalized_reply).

(** Exactly one candidate of the list matches, and it is [c]. *)
Definition sole_match (normalized_reply : str) (candidates : list str)
    (c : str) : Prop :=
  exists before after,
    candidates = before ++ c :: after
    /\ reply_matches normalized_reply c
    /\ Forall (fun x => ~ reply_matches normalized_reply x) (before ++ after).

(** No candidate matches. *)
Definition no_match (normalized_reply : str) (candidates : list str) : Prop :=
  Forall (fun x => ~ reply_matches normalized_reply x) candidates.

(** Two candidates, at different positions, match. *)
Definition several_match (normalized_reply : str) (candidates : list str)
    : Prop :=
  exists l1 c1 l2 c2 l3,
    candidates = l1 ++ c1 :: l2 ++ c2 :: l3
    /\ reply_matches normalized_reply c1
    /\ reply_matches normalized_reply c2.

(** The periods and the metrics of the query kept with a user turn; a
    turn without them has none. *)
Definition original_periods (q : Graph.Message) : list str :=
  default [] (default ∅ (Graph.msg_entities q) !! "seasons").

Definition original_metrics (q : Graph.Message) : list str :=
  default [] (default ∅ (Graph.msg_entities q) !! "metrics").

(** The user turn that an open clarification answers to: the latest user
    turn of the history. *)
Definition original_query (history : list Graph.Message) (q : Graph.Message)
    : Prop :=
  exists before after,
    history = before ++ q :: after
    /\ Graph.msg_role q = Some (txt "user")
    /\ Forall (fun m => Graph.msg_role m <> Some (txt "user")) after.

(** The user turn that opened the clarification being answered: the
    clarification is the last assistant turn of the history, it comes
    after the user turn with no other user turn between the two, and no
    user turn is stored after it (the reply is the very next user
    turn, not yet part of the history). *)
Definition opening_query (history : list Graph.Message)
    (clarification q : Graph.Message) : Prop :=
  exists before between after,
    history = before ++ q :: between ++ clarification :: after
    /\ Graph.msg_role q = Some (txt "user")
    /\ Graph.msg_role clarification = Some (txt "assistant")
    /\ Forall (fun m => Graph.msg_role m <> Some (txt "user")) between
    /\ Forall (fun m => Graph.msg_role m <> Some (txt "user")
                        /\ Graph.msg_role m <> Some (txt "assistant"))
              after.

(** A name has at least one character that is not a blank. *)
Definition not_blank (s : str) : Prop :=
  Exists (fun c => Py.is_space c = false) s.

(** The characters a filler token can begin with: a blank, a comma or a
    full stop.  No filler has one of them after its first character. *)
Definition boundary_char (c : ascii) : bool :=
  Py.is_space c || (c =? ",")%char || (c =? ".")%char.

(** A filler token of the reply, in any letter case: its lower-case form
    is one of the fillers the resolver deletes. *)
Definition filler_token (f : str) : Prop := In (Py.lower f) Graph.fillers.

(** A reply made of a name followed by filler tokens. *)
Definition with_fillers (name : str) (tail : list str) : str :=
  name ++ concat tail.

(** A candidate name that survives the trip through the clarification
    message: not empty, no full stop, no comma, no blank at either end. *)
Definition plain_name (c : str) : Prop :=
  c <> []
  /\ Py.has_char "."%char c = false
  /\ Py.has_char ","%char c = false
  /\ Py.strip c = c.

End Spec.

(** ** Conversations and lookups used as concrete inputs *)

Module Fixtures.

Import EntityResolver Graph.

Definition josh : str := txt "Josh Daicos".
Definition nick : str := txt "Nick Daicos".
Definition gordon : str := txt "Gordon Dangerfield".
Definition patrick : str := txt "Patrick Dangerfield".

(** A name lookup by surname. *)
Definition lookup (player_name : str) : list str :=
  if bool_decide (player_name = txt "Daicos") then [josh; nick]
  else if bool_decide (player_name = txt "Dangerfield") then [gordon; patrick]
  else if bool_decide (player_name = txt "Smith")
       then [txt "J. Smith"; txt "John Smith"]
  else [].

(** Activity read off a table of (player, seasons played). *)
Definition stats_from (table : list (str * list str))
    (p : str) (seasons : list str) : bool :=
  existsb (fun row => bool_decide (row.1 = p)
                      && existsb (fun s => Py.in_list s row.2) seasons) table.

Definition seasons_played : list (str * list str) :=
  [(josh, [txt "2024"; txt "2025"]);
   (nick, [txt "2024"; txt "2025"]);
   (patrick, [txt "2022"; txt "2023"]);
   (txt "J. Smith", [txt "2025"]);
   (txt "John Smith", [txt "2025"])].

Definition user_msg (text : str) (ents : gmap string (list str)) : Message :=
  {| msg_role := Some (txt "user"); msg_content := Some text;
     msg_entities := Some ents |}.

Definition assistant_msg (text : str) : Message :=
  {| msg_role := Some (txt "assistant"); msg_content := Some text;
     msg_entities := None |}.

Definition daicos_question : str :=
  txt "Multiple players named 'Daicos' were active in ['2025']: Josh Daicos, Nick Daicos. Which player did you mean?".

Definition team_question : str :=
  txt "Multiple teams found: Western Bulldogs, Western Sydney. Which team did you mean?".

(** The question quoted in the notes on the clarification chain, which
    cuts its list of names short with an ellipsis. *)
Definition nick_question : str :=
  txt "Multiple players named 'Nick' found: Alf Tredinnick, Arthur Nickless, Charlie Zinnick, Matthew Nicks, Nick Blakey, Nick Bloom... [41 players named Nick]. Which player did you mean?".

Definition smith_question : str :=
  txt "Multiple players named 'Smith' were active in ['2025']: J. Smith, John Smith. Which player did you mean?".

(** The entities stored with "How many goals did Daicos kick in 2025?". *)
Definition daicos_entities : gmap string (list str) :=
  <["players" := [txt "Daicos"]]>
    (<["seasons" := [txt "2025"]]> (<["metrics" := [txt "goals"]]> ∅)).

(** A state whose history is one question and the assistant's answer to
    it, with the user's reply as the current query. *)
Definition reply_state (question : Message) (answer : str) (reply : str)
    (prior_intent : option QueryIntent) : AgentState :=
  {| conversation_history := [question; assistant_msg answer];
     user_query := reply;
     entities := None;
     intent := prior_intent;
     requires_visualization := None;
     needs_clarification := Some true |}.

Definition daicos_state (reply : str) : AgentState :=
  reply_state
    (user_msg (txt "How many goals did Daicos kick in 2025?") daicos_entities)
    daicos_question reply (Some (OTHER_INTENT "PLAYER_COMPARISON")).

Definition team_state (reply : str) : AgentState :=
  reply_state
    (user_msg (txt "How did Western go in 2024?")
              (<["teams" := [txt "Western"]]> (<["seasons" := [txt "2024"]]> ∅)))
    team_question reply None.

End Fixtures.

(** ** [CareerTimeline.tsx]: the props of the timeline chart *)

Module CareerTimeline.

(** [new Date(text)] and [new Date()], kept as written: the parsing of a
    date text and the clock are the browser's. *)
Inductive JsDate : Type :=
  | DateOf (text : string)
  | DateNow.

Record TimelineItem : Type := {
  company : string;
  title : string;
  start_date : string;
  end_date : string;
  type : string;
  highlight : option string
}.

Definition getColor (type : string) : string :=
  if String.eqb type "education" then "#8b5cf6" else "#3b82f6".

(** The hover text; [if (item.highlight)] holds for a highlight that is
    given and not the empty string. *)
Definition hoverText (item : TimelineItem) : string :=
  let base :=
    "<b>" +:+ title item +:+ "</b><br>" +:+ company item +:+ "<br>"
      +:+ start_date item +:+ " - " +:+ end_date item in
  match highlight item with
  | Some h => if String.eqb h "" then base
              else base +:+ "<br><br><i>" +:+ h +:+ "</i>"
  | None => base
  end.

(** One bar of the chart. *)
Record LineTrace : Type := {
  x : JsDate * JsDate;
  y : nat * nat;
  mode : string;
  line_color : string;
  line_width : nat;
  name : string;
  hoverinfo : string;
  hovertext : string
}.

Definition data (items : list TimelineItem) : list LineTrace :=
  imap (fun index item =>
          let startDate := DateOf (start_date item) in
          let endDate :=
            if String.eqb (end_date item) "Present" then DateNow
            else DateOf (end_date item) in
          let color := getColor (type item) in
          {| x := (startDate, endDate);
             y := (index, index);
             mode := "lines";
             line_color := color;
             line_width := 24;
             name := company item;
             hoverinfo := "text";
             hovertext := hoverText item |})
       items.

(** The trace of the start markers. *)
Record MarkerTrace : Type := {
  marker_x : list JsDate;
  marker_y : list nat;
  marker_mode : string;
  marker_size : nat;
  marker_color : string;
  marker_line_color : list string;
  marker_line_width : nat;
  marker_hoverinfo : string;
  marker_showlegend : bool
}.

Definition markers (items : list TimelineItem) : MarkerTrace :=
  {| marker_x := map (fun item => DateOf (start_date item)) items;
     marker_y := imap (fun index _ => index) items;
     marker_mode := "markers";
     marker_size := 10;
     marker_color := "#fff";
     marker_line_color := map (fun item => getColor (type item)) items;
     marker_line_width := 2;
     marker_hoverinfo := "skip";
     marker_showlegend := false |}.

Definition tickvals (items : list TimelineItem) : list nat :=
  imap (fun index _ => index) items.

Definition tick_label (item : TimelineItem) : string :=
  title item +:+ "<br><span style="
    +:+ String (ascii_of_nat 34) "font-size:10px;color:#6b7280"
    +:+ String (ascii_of_nat 34) ">" +:+ company item +:+ "</span>".

Definition ticktext (items : list TimelineItem) : list string :=
  map tick_label items.

(** [Math.max(220, items.length * 55 + 100)] *)
Definition height (items : list TimelineItem) : nat :=
  Nat.max 220 (length items * 55 + 100).

(** [[...data, markers]] *)
Definition plot_data (items : list TimelineItem)
    : list (LineTrace + MarkerTrace) :=
  map inl (data items) ++ [inr (markers items)].

End CareerTimeline.

(** ** [useCharacterController.ts]: the arrow keys held down *)

Module CharacterController.

Definition is_arrow (key : string) : bool :=
  String.eqb key "ArrowLeft" || String.eqb key "ArrowRight".

Definition is_jump (key : string) : bool :=
  String.eqb key " " || String.eqb key "Spacebar".

(** What a handler did besides updating the keys: [e.preventDefault()]
    and [onJumpRef.current?.()]. *)
Record KeyEffects : Type := {
  defaultPrevented : bool;
  jumpCalled : bool
}.

Definition handleKeyDown (disabled : bool) (key : string)
    (prev : gset string) : gset string * KeyEffects :=
  if disabled
  then (prev, {| defaultPrevented := false; jumpCalled := false |})
  else
    (if is_arrow key then {[key]} ∪ prev else prev,
     {| defaultPrevented := is_arrow key || is_jump key;
        jumpCalled := is_jump key |}).

Definition handleKeyUp (key : string) (prev : gset string) : gset string :=
  if is_arrow key then prev ∖ {[key]} else prev.

(** The hook between two events: the [disabled] prop of the last render
    and the state [keysPressed]. *)
Record Controller : Type := {
  disabled : bool;
  keysPressed : gset string
}.

Inductive ControllerEvent : Type :=
  | KeyDown (key : string)
  | KeyUp (key : string)
  | Render (disabled : bool).

Definition mount (disabled : bool) : Controller :=
  {| disabled := disabled; keysPressed := ∅ |}.

(** A render runs the effect on [disabled] when the prop changed; the
    effect clears the keys when the prop is now true. *)
Definition step (c : Controller) (e : ControllerEvent) : Controller :=
  match e with
  | KeyDown key =>
      {| disabled := disabled c;
         keysPressed := (handleKeyDown (disabled c) key (keysPressed c)).1 |}
  | KeyUp key =>
      {| disabled := disabled c;
         keysPressed := handleKeyUp key (keysPressed c) |}
  | Render d =>
      {| disabled := d;
         keysPressed :=
           if d && negb (disabled c) then ∅ else keysPressed c |}
  end.

Definition run (c : Controller) (events : list ControllerEvent) : Controller :=
  fold_left step events c.

(** Is [key] held at the end of the events: its latest key event is a
    key-down. *)
Fixpoint held (key : string) (events : list ControllerEvent)
    (before : bool) : bool :=
  match events with
  | [] => before
  | KeyDown k :: rest =>
      held key rest (if String.eqb k key then true else before)
  | KeyUp k :: rest =>
      held key rest (if String.eqb k key then false else before)
  | Render _ :: rest => held key rest before
  end.

Definition key_event (e : ControllerEvent) : Prop :=
  match e with Render _ => False | _ => True end.

End CharacterController.

(** ** [useGameLoop.ts]: the animation loop *)

Module GameLoop.

Section Loop.

(** Time stamps and their subtraction are the browser's numbers. *)
Variable number : Type.
Variable minus : number -> number -> number.

(** The two refs: the time of the previous frame, and whether a frame is
    requested and not cancelled. *)
Record Loop : Type := {
  previousTime : option number;
  requested : bool
}.

(** [animate(time)]: the new refs and the [deltaTime] passed to
    [onTick], if it is called. *)
Definition animate (time : number) (l : Loop) : Loop * option number :=
  ({| previousTime := Some time; requested := true |},
   match previousTime l with
   | Some previous => Some (minus time previous)
   | None => None
   end).

(** The cleanup of the effect: the requested frame is cancelled. *)
Definition cleanup (l : Loop) : Loop :=
  {| previousTime := previousTime l; requested := false |}.

(** The body of the effect on [isRunning]. *)
Definition effect (isRunning : bool) (l : Loop) : Loop :=
  if isRunning then {| previousTime := None; requested := true |}
  else cleanup l.

Inductive LoopEvent : Type :=
  | Effect (isRunning : bool)
  | AnimationFrame (time : number).

(** One event: the effect runs again (after the cleanup of its last
    run), or the browser calls a requested frame. *)
Definition step (l : Loop) (e : LoopEvent) : Loop * option number :=
  match e with
  | Effect isRunning => (effect isRunning (cleanup l), None)
  | AnimationFrame time =>
      if requested l then animate time l else (l, None)
  end.

(** The deltas passed to [onTick] over a sequence of events. *)
Fixpoint ticks (l : Loop) (events : list LoopEvent) : list number :=
  match events with
  | [] => []
  | e :: rest =>
      let '(l', tick) := step l e in
      match tick with
      | Some delta => delta :: ticks l' rest
      | None => ticks l' rest
      end
  end.

Fixpoint final (l : Loop) (events : list LoopEvent) : Loop :=
  match events with
  | [] => l
  | e :: rest => final (step l e).1 rest
  end.

(** The differences of consecutive time stamps. *)
Fixpoint deltas (times : list number) : list number :=
  match times with
  | [] => []
  | t0 :: rest =>
      match rest with
      | [] => []
      | t1 :: _ => minus t1 t0 :: deltas rest
      end
  end.

End Loop.

Arguments previousTime {number} l.
Arguments requested {number} l.
Arguments Effect {number} isRunning.
Arguments AnimationFrame {number} time.

End GameLoop.

(** ** [useAnalytics]: the visitor id and the page tracking *)

Module Analytics.

Definition VISITOR_ID_KEY : string := "visitor_id".

(** The id template: [now] is [Date.now()] printed, [random36] is
    [Math.random().toString(36)]. *)
Definition new_visitor_id (now random36 : string) : string :=
  now +:+ "-" +:+ substring 2 9 random36.

(** [getOrCreateVisitorId]: the id and the storage it leaves.  A stored
    empty string counts as no id. *)
Definition getOrCreateVisitorId (now random36 : string)
    (localStorage : gmap string string) : string * gmap string string :=
  match localStorage !! VISITOR_ID_KEY with
  | Some visitorId =>
      if String.eqb visitorId ""
      then (new_visitor_id now random36,
            <[VISITOR_ID_KEY := new_visitor_id now random36]> localStorage)
      else (visitorId, localStorage)
  | None =>
      (new_visitor_id now random36,
       <[VISITOR_ID_KEY := new_visitor_id now random36]> localStorage)
  end.

(** The body of the tracking request. *)
Record TrackingBody : Type := {
  visitor_id : string;
  page : string;
  referrer : option string;
  user_agent : string
}.

(** What the browser supplies when the effect runs. *)
Record Environment : Type := {
  now : string;
  random36 : string;
  document_referrer : string;
  navigator_userAgent : string
}.

Record Tracker : Type := {
  localStorage : gmap string string;
  lastTrackedPath : option string
}.

(** One run of the effect for [pathname]: the request sent, if any. *)
Definition track (t : Tracker) (run : string * Environment)
    : Tracker * option TrackingBody :=
  let '(pathname, env) := run in
  if bool_decide (lastTrackedPath t = Some pathname) then (t, None)
  else
    let '(visitorId, storage) :=
      getOrCreateVisitorId (now env) (random36 env) (localStorage t) in
    ({| localStorage := storage; lastTrackedPath := Some pathname |},
     Some {| visitor_id := visitorId;
             page := pathname;
             referrer := if String.eqb (document_referrer env) "" then None
                         else Some (document_referrer env);
             user_agent := navigator_userAgent env |}).

Fixpoint requests (t : Tracker) (runs : list (string * Environment))
    : list TrackingBody :=
  match runs with
  | [] => []
  | r :: rest =>
      let '(t', sent) := track t r in
      match sent with
      | Some body => body :: requests t' rest
      | None => requests t' rest
      end
  end.

(** The paths of a sequence that differ from the path before them. *)
Fixpoint changes (last : option string) (paths : list string) : list string :=
  match paths with
  | [] => []
  | p :: rest =>
      if bool_decide (last = Some p) then changes last rest
      else p :: changes (Some p) rest
  end.

End Analytics.

(** ** [SkillsRadar]: closing the polygon *)

Module SkillsRadar.

Section Radar.

Variable number : Type.

(** [Object.keys(skills)] and [Object.values(skills)], for the entries of
    [skills] in their enumeration order. *)
Definition skillNames (skills : list (string * number)) : list string :=
  map fst skills.

Definition skillValues (skills : list (string * number)) : list number :=
  map snd skills.

(** [[...xs, xs[0]]]: an element is a value or [undefined] ([None]). *)
Definition closed {A : Type} (xs : list A) : list (option A) :=
  map Some xs ++ [head xs].

Definition closedValues (skills : list (string * number))
    : list (option number) :=
  closed (skillValues skills).

Definition closedNames (skills : list (string * number))
    : list (option string) :=
  closed (skillNames skills).

End Radar.

End SkillsRadar.

(** ** [complete_data_ingestion.sh]: the missing matches by year *)

Module Ingestion.

Section ByYear.

(** A match row and its [season] column. *)
Variable Match : Type.
Variable season : Match -> Z.

(** [by_year.setdefault(m.season, []).append(m)] *)
Definition add_match (by_year : gmap Z (list Match)) (m : Match)
    : gmap Z (list Match) :=
  <[season m := default [] (by_year !! season m) ++ [m]]> by_year.

Definition group_by_year (missing : list Match) : gmap Z (list Match) :=
  fold_left add_match missing ∅.

End ByYear.

End Ingestion.

(** ** Counting the elements a boolean test keeps *)

Section FilterCount.

Context {A : Type} (f : A -> bool).

Lemma filter_none (l : list A) :
  Forall (fun x => f x = false) l -> List.filter f l = [].
Proof.
  induction 1 as [|x l Hx _ IH]; simpl; [reflexivity|].
  now rewrite Hx.
Qed.

Lemma filter_nil_none (l : list A) :
  List.filter f l = [] -> Forall (fun x => f x = false) l.
Proof.
  induction l as [|x l IH]; simpl; intros H; [constructor|].
  destruct (f x) eqn:Hx; [discriminate|].
  constructor; auto.
Qed.

Lemma filter_sole (before after : list A) (c : A) :
  f c = true ->
  Forall (fun x => f x = false) (before ++ after) ->
  List.filter f (before ++ c :: after) = [c].
Proof.
  intros Hc Hrest. apply Forall_app in Hrest as [Hb Ha].
  rewrite List.filter_app. simpl. rewrite Hc.
  now rewrite (filter_none _ Hb), (filter_none _ Ha).
Qed.

Lemma filter_cons_split (l : list A) (c : A) (rest : list A) :
  List.filter f l = c :: rest ->
  exists before after,
    l = before ++ c :: after
    /\ f c = true
    /\ Forall (fun x => f x = false) before
    /\ List.filter f after = rest.
Proof.
  induction l as [|x l IH]; simpl; [discriminate|].
  destruct (f x) eqn:Hx.
  - intros [= -> <-]. exists [], l. repeat split; auto.
  - intros H. destruct (IH H) as (b & a & -> & Hc & Hb & Ha).
    exists (x :: b), a. repeat split; auto.
Qed.

Lemma filter_singleton_split (l : list A) (c : A) :
  List.filter f l = [c] ->
  exists before after,
    l = before ++ c :: after
    /\ f c = true
    /\ Forall (fun x => f x = false) (before ++ after).
Proof.
  intros H. destruct (filter_cons_split _ _ _ H) as (b & a & -> & Hc & Hb & Ha).
  exists b, a. repeat split; auto.
  apply Forall_app. split; [assumption|]. now apply filter_nil_none.
Qed.

Lemma filter_two_split (l : list A) (c1 c2 : A) (rest : list A) :
  List.filter f l = c1 :: c2 :: rest ->
  exists l1 l2 l3,
    l = l1 ++ c1 :: l2 ++ c2 :: l3 /\ f c1 = true /\ f c2 = true.
Proof.
  intros H. destruct (filter_cons_split _ _ _ H) as (l1 & a & -> & Hc1 & _ & Ha).
  destruct (filter_cons_split _ _ _ Ha) as (l2 & l3 & -> & Hc2 & _ & _).
  now exists l1, l2, l3.
Qed.

Lemma filter_two_length (l1 l2 l3 : list A) (c1 c2 : A) :
  f c1 = true -> f c2 = true ->
  2 <= length (List.filter f (l1 ++ c1 :: l2 ++ c2 :: l3)).
Proof.
  intros H1 H2. rewrite List.filter_app. simpl. rewrite H1.
  rewrite List.filter_app. simpl. rewrite H2.
  rewrite !length_app. simpl. rewrite length_app. simpl. lia.
Qed.

Lemma filter_length_le (l : list A) :
  length (List.filter f l) <= length l.
Proof.
  induction l as [|x l IH]; simpl; [lia|].
  destruct (f x); simpl; lia.
Qed.

End FilterCount.

(** ** The disambiguator *)

Section DisambiguatorFacts.

Import EntityResolver.

Variable query_players_like : str -> list str.
Variable has_stats_in_season : str -> list str -> bool.

Local Abbreviation disambiguate :=
  (_disambiguate_player query_players_like has_stats_in_season).
Local Abbreviation active player_name seasons :=
  (List.filter (fun p => has_stats_in_season p seasons)
               (query_players_like player_name)).

(** C4.  When the lookup gives two or more candidates, the requested
    seasons are not empty, and exactly one candidate (the one at some
    position of the lookup, every other being inactive) has recorded
    activity in the requested seasons, [_disambiguate_player] returns
    that candidate: activity breaks the tie of the name. *)
Theorem disambiguate_sole_active_resolves
    (player_name : str) (seasons : list str)
    (before after : list str) (a : str) :
  query_players_like player_name = before ++ a :: after ->
  2 <= length (query_players_like player_name) ->
  seasons <> [] ->
  has_stats_in_season a seasons = true ->
  Forall (fun p => has_stats_in_season p seasons = false) (before ++ after) ->
  _disambiguate_player query_players_like has_stats_in_season
                       player_name seasons
  = Returns a.
Proof.
  intros Hq Hlen _ Ha Hothers.
  unfold _disambiguate_player.
  destruct (Nat.eqb_spec (length (query_players_like player_name)) 1) as [E|_];
    [lia|].
  rewrite Hq.
  rewrite (filter_sole (fun p => has_stats_in_season p seasons)
                       before after a Ha Hothers).
  reflexivity.
Qed.

(** The zero-active branch: with two or more candidates of which none
    is active, the first candidate in lookup order is returned, as a
    bare value. *)
Lemma disambiguate_none_active_first
    (player_name : str) (seasons : list str) (first : str) (rest : list str) :
  query_players_like player_name = first :: rest ->
  rest <> [] ->
  Forall (fun p => has_stats_in_season p seasons = false)
         (query_players_like player_name) ->
  disambiguate player_name seasons = Returns first.
Proof.
  intros Hq Hrest Hnone.
  unfold _disambiguate_player.
  rewrite (filter_none _ _ Hnone). rewrite Hq.
  destruct rest as [|second rest]; [congruence|]. reflexivity.
Qed.

(** Which outcome the routine ends with is decided by the number of
    active candidates alone once the lookup is known. *)
Lemma disambiguate_several_active_raises
    (player_name : str) (seasons : list str) :
  2 <= length (active player_name seasons) ->
  disambiguate player_name seasons
  = Raises (NeedsClarification
              (clarification_message player_name seasons
                                     (active player_name seasons))).
Proof.
  intros H2. unfold _disambiguate_player.
  pose proof (filter_length_le (fun p => has_stats_in_season p seasons)
                               (query_players_like player_name)) as Hle.
  destruct (Nat.eqb_spec (length (query_players_like player_name)) 1); [lia|].
  destruct (Nat.eqb_spec (length (active player_name seasons)) 1); [lia|].
  destruct (Nat.eqb_spec (length (active player_name seasons)) 0); [lia|].
  reflexivity.
Qed.

Lemma disambiguate_raise_several_active
    (player_name : str) (seasons : list str) (message : str) :
  disambiguate player_name seasons = Raises (NeedsClarification message) ->
  2 <= length (active player_name seasons).
Proof.
  unfold _disambiguate_player, single_match, item0.
  destruct (Nat.eqb_spec (length (query_players_like player_name)) 1).
  - destruct (query_players_like player_name); discriminate.
  - destruct (Nat.eqb_spec (length (active player_name seasons)) 1).
    + destruct (active player_name seasons); discriminate.
    + destruct (Nat.eqb_spec (length (active player_name seasons)) 0).
      * destruct (query_players_like player_name); discriminate.
      * intros _. lia.
Qed.

(** C5, as the code has it.  Ambiguity is signalled by raising: the
    routine raises [NeedsClarification] exactly when two or more
    candidates are active in the requested seasons, and the exception's
    message then lists those active candidates in lookup order; with at
    least one candidate and at most one active, it returns one of the
    looked-up candidates as an ordinary value. *)
Theorem disambiguate_ambiguity_is_raised
    (player_name : str) (seasons : list str) :
  ((exists message,
      disambiguate player_name seasons = Raises (NeedsClarification message))
   <-> 2 <= length (active player_name seasons))
  /\ (2 <= length (active player_name seasons) ->
      disambiguate player_name seasons
      = Raises (NeedsClarification
                  (clarification_message player_name seasons
                                         (active player_name seasons))))
  /\ (query_players_like player_name <> [] ->
      length (active player_name seasons) <= 1 ->
      exists p, disambiguate player_name seasons = Returns p
                /\ In p (query_players_like player_name)).
Proof.
  split; [split|split].
  - intros [m Hm]. eapply disambiguate_raise_several_active; eauto.
  - intros H. eexists. now apply disambiguate_several_active_raises.
  - apply disambiguate_several_active_raises.
  - intros Hne Hle. unfold _disambiguate_player, single_match.
    destruct (query_players_like player_name) as [|p0 l] eqn:Hq; [congruence|].
    destruct (Nat.eqb_spec (length (p0 :: l)) 1).
    + exists p0. split; [reflexivity|now left].
    + destruct (List.filter _ (p0 :: l)) as [|x [|y r]] eqn:Hf.
      * exists p0. split; [reflexivity|now left].
      * exists x. split; [reflexivity|].
        assert (In x (List.filter (fun p => has_stats_in_season p seasons)
                                  (p0 :: l))) as Hin
          by (rewrite Hf; now left).
        now apply List.filter_In in Hin.
      * simpl in Hle. lia.
Qed.

End DisambiguatorFacts.

(** ** The reply resolver: matching *)

Section MatchingFacts.

Import Graph.

Lemma in_list_In (x : str) (xs : list str) :
  Py.in_list x xs = true <-> In x xs.
Proof.
  unfold Py.in_list. rewrite existsb_exists. split.
  - intros (y & Hy & Heq). apply bool_decide_eq_true in Heq. now subst.
  - intros H. exists x. split; [assumption|]. now apply bool_decide_eq_true.
Qed.

Lemma forallb_in_list (ws xs : list str) :
  forallb (fun w => Py.in_list w xs) ws = true
  <-> Forall (fun w => In w xs) ws.
Proof.
  rewrite forallb_forall, List.Forall_forall.
  split; intros H w Hw; apply in_list_In; auto.
Qed.

(** The loop body implements the three matching rules. *)
Lemma candidate_matches_spec (r c : str) :
  candidate_matches r c = true <-> Spec.reply_matches r c.
Proof.
  unfold candidate_matches, Spec.reply_matches, Spec.whole_word.
  case_bool_decide as Heq.
  - split; [now left | reflexivity].
  - destruct (Py.split_ws r) as [|w [|w' ws]] eqn:Hsplit; simpl.
    + split; [intros _; right; right; constructor | reflexivity].
    + rewrite in_list_In. split.
      * intros Hin. right. left. now exists w.
      * intros [Hr | [(t & [= <-] & Ht) | Hall]];
          [contradiction | assumption | now inversion Hall].
    + change (Py.in_list w (Py.split_ws (Py.lower c))
              && (Py.in_list w' (Py.split_ws (Py.lower c))
                  && forallb (fun word =>
                                Py.in_list word (Py.split_ws (Py.lower c))) ws))
        with (forallb (fun word =>
                         Py.in_list word (Py.split_ws (Py.lower c)))
                      (w :: w' :: ws)).
      rewrite forallb_in_list. split.
      * intros Hall. right. now right.
      * intros [Hr | [(t & [=] & _) | Hall]]; [contradiction | assumption].
Qed.

Lemma candidate_rejected_spec (r c : str) :
  candidate_matches r c = false <-> ~ Spec.reply_matches r c.
Proof.
  rewrite <- candidate_matches_spec.
  destruct (candidate_matches r c); split; congruence.
Qed.

Lemma rejected_all_spec (r : str) (l : list str) :
  Forall (fun x => candidate_matches r x = false) l
  <-> Forall (fun x => ~ Spec.reply_matches r x) l.
Proof.
  rewrite !List.Forall_forall.
  split; intros H x Hx; apply candidate_rejected_spec; auto.
Qed.

Lemma resolve_reply_Some (candidates : list str) (reply c : str) :
  resolve_reply candidates reply = Some c
  <-> Spec.sole_match (clean_user_response reply) candidates c.
Proof.
  unfold resolve_reply, potential_matches, Spec.sole_match. split.
  - destruct (List.filter _ candidates) as [|m [|m' ms]] eqn:Hf;
      try discriminate.
    intros [= ->].
    destruct (filter_singleton_split _ _ _ Hf) as (b & a & -> & Hc & Hrest).
    exists b, a. split; [reflexivity|]. split.
    + now apply candidate_matches_spec.
    + now apply rejected_all_spec.
  - intros (b & a & -> & Hc & Hrest).
    rewrite filter_sole; [reflexivity | | ].
    + now apply candidate_matches_spec.
    + now apply rejected_all_spec.
Qed.

Lemma resolve_reply_None (candidates : list str) (reply : str) :
  resolve_reply candidates reply = None
  <-> Spec.no_match (clean_user_response reply) candidates
      \/ Spec.several_match (clean_user_response reply) candidates.
Proof.
  unfold resolve_reply, potential_matches, Spec.no_match, Spec.several_match.
  split.
  - destruct (List.filter _ candidates) as [|m [|m' ms]] eqn:Hf.
    + intros _. left. apply rejected_all_spec. now apply filter_nil_none.
    + discriminate.
    + intros _. right.
      destruct (filter_two_split _ _ _ _ _ Hf) as (l1 & l2 & l3 & -> & H1 & H2).
      exists l1, m, l2, m', l3.
      split; [reflexivity|]. split; now apply candidate_matches_spec.
  - intros [Hnone | (l1 & c1 & l2 & c2 & l3 & -> & H1 & H2)].
    + apply rejected_all_spec in Hnone. now rewrite (filter_none _ _ Hnone).
    + apply candidate_matches_spec in H1, H2.
      pose proof (filter_two_length
                    (candidate_matches (clean_user_response reply))
                    l1 l2 l3 c1 c2 H1 H2) as Hlen.
      destruct (List.filter _ _) as [|m [|m' ms]]; simpl in Hlen;
        [reflexivity | lia | reflexivity].
Qed.

(** C1.  [resolve_reply] gives a resolution exactly when exactly one
    candidate matches the normalized reply under the three rules (exact
    equality with the lower-cased display name, a single token that is
    a whole word of it, every token a whole word of it), and that
    resolution is the matching candidate; with no match or with several
    it gives [None].  For the candidates Josh Daicos and Nick Daicos,
    the reply Nick resolves to Nick Daicos and the reply Daicos to
    [None].  (A reply without any token satisfies the third rule for
    every candidate.) *)
Theorem resolve_reply_exactly_one_match (candidates : list str) (reply : str) :
  (forall c, resolve_reply candidates reply = Some c
             <-> Spec.sole_match (clean_user_response reply) candidates c)
  /\ (resolve_reply candidates reply = None
      <-> Spec.no_match (clean_user_response reply) candidates
          \/ Spec.several_match (clean_user_response reply) candidates)
  /\ resolve_reply [Fixtures.josh; Fixtures.nick] (txt "Nick")
     = Some Fixtures.nick
  /\ resolve_reply [Fixtures.josh; Fixtures.nick] (txt "Daicos") = None.
Proof.
  split; [|split; [|split]].
  - intros c. apply resolve_reply_Some.
  - apply resolve_reply_None.
  - vm_compute. reflexivity.
  - vm_compute. reflexivity.
Qed.

End MatchingFacts.

(** ** The reply resolver: the state written on a match *)

Section ResolvedStateFacts.

Import Graph.

(** What an early return of the block tells: the last assistant turn
    asked a clarification question, candidates were read off its text,
    the reply matched exactly one of them, and the returned state is
    the one written for that candidate. *)
Lemma understand_node_Some (state state' : AgentState) :
  understand_node state = Some state' ->
  exists last_assistant_msg candidates_str matched_candidate,
    last_with_role (txt "assistant") (conversation_history state)
    = Some last_assistant_msg
    /\ search_candidates_str (default [] (msg_content last_assistant_msg))
       = Some candidates_str
    /\ resolve_reply (split_candidates candidates_str) (user_query state)
       = Some matched_candidate
    /\ state' = {| conversation_history := conversation_history state;
                   user_query := user_query state;
                   entities :=
                     Some (resolved_entities matched_candidate
                                             (conversation_history state));
                   intent := Some SIMPLE_STAT;
                   requires_visualization := Some false;
                   needs_clarification := Some false |}.
Proof.
  unfold understand_node.
  destruct (2 <=? length (conversation_history state))%nat; [|discriminate].
  destruct (last_with_role (txt "assistant") (conversation_history state))
    as [msg|]; [|discriminate].
  destruct (_ || _); [|discriminate].
  destruct (search_candidates_str _) as [cs|] eqn:Hcs; [|discriminate].
  destruct (resolve_reply _ _) as [m|] eqn:Hm; [|discriminate].
  intros [= <-]. now exists msg, cs, m.
Qed.

Lemma find_skip {A : Type} (f : A -> bool) (skipped : list A) (l : list A) :
  Forall (fun x => f x = false) skipped ->
  List.find f (skipped ++ l) = List.find f l.
Proof.
  induction 1 as [|x s Hx _ IH]; simpl; [reflexivity|]. now rewrite Hx.
Qed.

(** The reversed scan stops at the latest turn of the role. *)
Lemma last_with_role_latest (r : str) (before after : list Message)
    (q : Message) :
  msg_role q = Some r ->
  Forall (fun m => msg_role m <> Some r) after ->
  last_with_role r (before ++ q :: after) = Some q.
Proof.
  intros Hq Hafter. unfold last_with_role.
  rewrite rev_app_distr. simpl. rewrite <- app_assoc. simpl.
  rewrite find_skip.
  - simpl. now rewrite bool_decide_eq_true_2.
  - apply List.Forall_rev.
    eapply List.Forall_impl; [|exact Hafter].
    intros m Hm. now apply bool_decide_eq_false_2.
Qed.

(** [carry_over] writes its own key only. *)
Lemma carry_over_lookup_ne (key key' : string)
    (original ents : gmap string (list str)) :
  key <> key' -> carry_over key original ents !! key' = ents !! key'.
Proof.
  intros Hne. unfold carry_over.
  destruct (original !! key) as [[|x xs]|]; [reflexivity| |reflexivity].
  now rewrite lookup_insert_ne.
Qed.

(** On its own key, [carry_over] leaves the value of the original
    query when that value is not empty, and the present value else. *)
Lemma carry_over_lookup (key : string)
    (original ents : gmap string (list str)) :
  ents !! key = Some [] ->
  carry_over key original ents !! key
  = Some (default [] (original !! key)).
Proof.
  intros Hents. unfold carry_over.
  destruct (original !! key) as [[|x xs]|]; simpl; [assumption| |assumption].
  now rewrite lookup_insert_eq.
Qed.

Lemma resolved_entities_context (matched : str) (history : list Message)
    (q : Message) :
  Spec.original_query history q ->
  resolved_entities matched history !! "seasons"
  = Some (Spec.original_periods q)
  /\ resolved_entities matched history !! "metrics"
     = Some (Spec.original_metrics q).
Proof.
  intros (before & after & -> & Hrole & Hafter).
  unfold resolved_entities, Spec.original_periods, Spec.original_metrics.
  rewrite (last_with_role_latest _ _ _ _ Hrole Hafter). split.
  - rewrite carry_over_lookup_ne by discriminate.
    now rewrite carry_over_lookup.
  - rewrite carry_over_lookup; [reflexivity|].
    now rewrite carry_over_lookup_ne by discriminate.
Qed.

(** Outside the seasons and the metrics the written dictionary is the
    literal one. *)
Lemma resolved_entities_frame (matched : str) (history : list Message)
    (key : string) :
  key <> "seasons" -> key <> "metrics" ->
  resolved_entities matched history !! key = fresh_entities matched !! key.
Proof.
  intros Hs Hm. unfold resolved_entities.
  destruct (last_with_role (txt "user") history); [|reflexivity].
  rewrite !carry_over_lookup_ne by congruence. reflexivity.
Qed.

Lemma opening_query_latest (history : list Message)
    (clarification q : Message) :
  Spec.opening_query history clarification q ->
  Spec.original_query history q
  /\ last_with_role (txt "assistant") history = Some clarification.
Proof.
  intros (before & between & after & -> & Hq & Hc & Hbetween & Hafter).
  split.
  - exists before, (between ++ clarification :: after).
    split; [reflexivity|]. split; [exact Hq|].
    apply Forall_app. split; [exact Hbetween|].
    constructor; [rewrite Hc; discriminate|].
    eapply List.Forall_impl; [|exact Hafter]. now intros m [H _].
  - change (before ++ q :: between ++ clarification :: after)
      with (before ++ (q :: between) ++ clarification :: after).
    rewrite app_assoc. apply last_with_role_latest; [exact Hc|].
    eapply List.Forall_impl; [|exact Hafter]. now intros m [_ H].
Qed.

(** C2.  When a reply resolves a clarification, the seasons and the
    metrics written to the state are those of the original ambiguous
    query: the user turn that opened the clarification, to which the
    last assistant turn of the history, the clarification whose
    candidates the reply is matched against, was the answer, no user
    turn being stored after it.  They are carried over (a query stored
    without seasons or metrics gives none), not left empty. *)
Theorem reply_carries_original_context
    (state state' : AgentState) (clarification q : Message) :
  Spec.opening_query (conversation_history state) clarification q ->
  understand_node state = Some state' ->
  exists candidates_str matched_candidate recovered,
    search_candidates_str (default [] (msg_content clarification))
    = Some candidates_str
    /\ resolve_reply (split_candidates candidates_str) (user_query state)
       = Some matched_candidate
    /\ entities state' = Some recovered
    /\ recovered !! "players" = Some [matched_candidate]
    /\ recovered !! "seasons" = Some (Spec.original_periods q)
    /\ recovered !! "metrics" = Some (Spec.original_metrics q).
Proof.
  intros Hopen Hret.
  destruct (opening_query_latest _ _ _ Hopen) as [Hq Hlast].
  destruct (understand_node_Some _ _ Hret)
    as (msg & cs & m & Hmsg & Hcs & Hm & ->).
  rewrite Hlast in Hmsg. injection Hmsg as <-.
  exists cs, m. eexists.
  split; [exact Hcs|]. split; [exact Hm|]. split; [reflexivity|]. split.
  - rewrite resolved_entities_frame by discriminate. reflexivity.
  - now apply resolved_entities_context.
Qed.

(** C9.  On a matched reply the matched candidate, the one the reply
    selects among the names read off the last assistant turn, is
    written to the players slot and the teams slot is left empty,
    whatever the question asked: the test of the question's wording
    (player or team) has no part in the slots written. *)
Theorem reply_fills_players_slot (state state' : AgentState) :
  understand_node state = Some state' ->
  exists last_assistant_msg candidates_str matched_candidate written,
    last_with_role (txt "assistant") (conversation_history state)
    = Some last_assistant_msg
    /\ search_candidates_str (default [] (msg_content last_assistant_msg))
       = Some candidates_str
    /\ resolve_reply (split_candidates candidates_str) (user_query state)
       = Some matched_candidate
    /\ entities state' = Some written
    /\ written !! "players" = Some [matched_candidate]
    /\ written !! "teams" = Some [].
Proof.
  intros Hret.
  destruct (understand_node_Some _ _ Hret) as (msg & cs & m & Hl & Hs & Hr & ->).
  exists msg, cs, m. eexists. simpl.
  repeat (split; [eassumption || reflexivity|]).
  split; rewrite resolved_entities_frame by discriminate; reflexivity.
Qed.

(** C10.  On a matched reply the intent is set to [SIMPLE_STAT] and
    [requires_visualization] to false; the state returned depends on
    the history and the reply only, not on the intent, entities or
    flags the state held before; and apart from the seasons and the
    metrics the entities are those of the literal dictionary (the
    matched player, no team, no round). *)
Theorem reply_resets_intent (state state' : AgentState) :
  understand_node state = Some state' ->
  intent state' = Some SIMPLE_STAT
  /\ requires_visualization state' = Some false
  /\ (forall prior_entities prior_intent prior_visualization prior_clarification,
        understand_node
          {| conversation_history := conversation_history state;
             user_query := user_query state;
             entities := prior_entities;
             intent := prior_intent;
             requires_visualization := prior_visualization;
             needs_clarification := prior_clarification |}
        = Some state')
  /\ exists matched_candidate written,
       entities state' = Some written
       /\ forall key, key <> "seasons" -> key <> "metrics" ->
                      written !! key = fresh_entities matched_candidate !! key.
Proof.
  intros Hret.
  destruct (understand_node_Some _ _ Hret) as (msg & cs & m & Hl & Hs & Hr & ->).
  simpl. split; [reflexivity|]. split; [reflexivity|]. split.
  - intros. rewrite <- Hret. reflexivity.
  - exists m. eexists. split; [reflexivity|].
    intros key Hk1 Hk2. now apply resolved_entities_frame.
Qed.

End ResolvedStateFacts.

(** ** Deleting the fillers *)

Section DeleteAllFacts.

Lemma delete_all_fuel_enough (old : str) (n m : nat) (s : str) :
  old <> [] -> length s <= n -> length s <= m ->
  Py.delete_all_fuel n old s = Py.delete_all_fuel m old s.
Proof.
  intros Hold. revert m s.
  induction n as [|n IH]; intros m s Hn Hm.
  - destruct s; [|simpl in Hn; lia]. now destruct m.
  - destruct m as [|m].
    + destruct s; [reflexivity | simpl in Hm; lia].
    + destruct s as [|c s]; [reflexivity|]. simpl.
      destruct old as [|o os]; [congruence|].
      destruct (Py.startswith (o :: os) (c :: s)).
      * simpl. pose proof (length_skipn (length os) s).
        simpl in Hn, Hm. apply IH; lia.
      * f_equal. simpl in Hn, Hm. apply IH; lia.
Qed.

Lemma delete_all_nil (old : str) : Py.delete_all old [] = [].
Proof. now destruct old. Qed.

(** The scan, one step at a time. *)
Lemma delete_all_cons (o : ascii) (os : str) (c : ascii) (s : str) :
  Py.delete_all (o :: os) (c :: s)
  = if Py.startswith (o :: os) (c :: s)
    then Py.delete_all (o :: os) (skipn (length os) s)
    else c :: Py.delete_all (o :: os) s.
Proof.
  unfold Py.delete_all.
  change (Py.delete_all_fuel (length (c :: s)) (o :: os) (c :: s))
    with (if Py.startswith (o :: os) (c :: s)
          then Py.delete_all_fuel (length s) (o :: os) (skipn (length os) s)
          else c :: Py.delete_all_fuel (length s) (o :: os) s).
  destruct (Py.startswith (o :: os) (c :: s)); [|reflexivity].
  pose proof (length_skipn (length os) s).
  apply delete_all_fuel_enough; [discriminate | lia | lia].
Qed.

Lemma startswith_length (p s : str) :
  Py.startswith p s = true -> length p <= length s.
Proof.
  revert s. induction p as [|a p IH]; intros [|b s] H; simpl in *.
  - lia.
  - lia.
  - discriminate H.
  - apply andb_true_iff in H as [_ H]. apply IH in H. lia.
Qed.

Lemma startswith_self_app (p s : str) : Py.startswith p (p ++ s) = true.
Proof.
  induction p as [|a p IH]; simpl; [reflexivity|].
  now rewrite Ascii.eqb_refl.
Qed.

(** Deleting a text in front of which it stands. *)
Lemma delete_all_self_app (o : ascii) (os : str) (s : str) :
  Py.delete_all (o :: os) ((o :: os) ++ s) = Py.delete_all (o :: os) s.
Proof.
  simpl app. rewrite delete_all_cons.
  change (o :: os ++ s) with ((o :: os) ++ s).
  rewrite startswith_self_app.
  rewrite skipn_app, skipn_all, Nat.sub_diag. reflexivity.
Qed.

End DeleteAllFacts.

Section FillerFacts.

Import Graph.

Local Arguments Py.delete_all : simpl never.

(** A text begins at a boundary when it is empty or begins with a
    boundary character. *)
Local Abbreviation at_boundary C :=
  (match C with [] => True | c :: _ => Spec.boundary_char c = true end).

Local Abbreviation inner := (fun c => Spec.boundary_char c = false).

(** Every filler begins with a boundary character and has none
    afterwards; a one-character filler is not a blank. *)
Lemma filler_shape (t : str) :
  In t fillers ->
  exists t0 tl,
    t = t0 :: tl
    /\ Spec.boundary_char t0 = true
    /\ Forall inner tl
    /\ (tl = [] -> Py.is_space t0 = false).
Proof.
  intros H. unfold fillers, txt in H. simpl in H.
  repeat (destruct H as [<- | H];
          [ eexists _, _; split; [reflexivity|]; split; [reflexivity|];
            split; [repeat constructor
                   | intros Htl; first [discriminate Htl | reflexivity]]
          | ]).
  destruct H.
Qed.

Lemma boundary_not_inner (a b : ascii) :
  Spec.boundary_char a = true -> Spec.boundary_char b = false ->
  (a =? b)%char = false.
Proof.
  intros Ha Hb. destruct (Ascii.eqb_spec a b); [congruence | reflexivity].
Qed.

(** Behind its first character a filler cannot run across a boundary. *)
Lemma startswith_inner_app (tl A C : str) :
  Forall inner tl -> at_boundary C ->
  Py.startswith tl (A ++ C) = Py.startswith tl A.
Proof.
  intros Htl HC. revert A.
  induction Htl as [|x tl Hx _ IH]; intros A; [reflexivity|].
  destruct A as [|a A]; simpl.
  - destruct C as [|c C]; [reflexivity|].
    rewrite Ascii.eqb_sym, (boundary_not_inner c x HC Hx). reflexivity.
  - now rewrite IH.
Qed.

(** A deletion splits at a boundary: no occurrence of a filler lies
    across it. *)
Lemma delete_all_app_boundary (t Z C : str) :
  In t fillers -> at_boundary C ->
  Py.delete_all t (Z ++ C) = Py.delete_all t Z ++ Py.delete_all t C.
Proof.
  intros Ht HC.
  destruct (filler_shape t Ht) as (t0 & tl & -> & _ & Htl & _).
  remember (length Z) as n eqn:Hn.
  revert Z Hn. induction n as [n IH] using lt_wf_ind. intros Z Hn.
  destruct Z as [|z Z]; [now rewrite delete_all_nil|].
  simpl app. rewrite !delete_all_cons.
  simpl Py.startswith. rewrite (startswith_inner_app tl Z C Htl HC).
  destruct ((t0 =? z)%char && Py.startswith tl Z) eqn:Hstart.
  - apply andb_true_iff in Hstart as [_ Hstart].
    apply startswith_length in Hstart.
    rewrite skipn_app.
    replace (length tl - length Z) with 0 by lia. rewrite drop_0.
    pose proof (length_skipn (length tl) Z).
    eapply IH; [|reflexivity]. simpl in Hn. lia.
  - simpl. f_equal. eapply IH; [|reflexivity]. simpl in Hn. lia.
Qed.

(** Characters that are no boundary are kept: no filler begins there. *)
Lemma delete_all_keep_inner (t A R : str) :
  In t fillers -> Forall inner A ->
  Py.delete_all t (A ++ R) = A ++ Py.delete_all t R.
Proof.
  intros Ht HA.
  destruct (filler_shape t Ht) as (t0 & tl & -> & Ht0 & _ & _).
  induction HA as [|a A Ha _ IH]; [reflexivity|].
  simpl app. rewrite delete_all_cons. simpl Py.startswith.
  rewrite (boundary_not_inner t0 a Ht0 Ha). simpl. now rewrite IH.
Qed.

(** No filler begins another one. *)
Lemma filler_not_prefix (t t' R : str) :
  In t fillers -> In t' fillers -> t <> t' ->
  Py.startswith t (t' ++ R) = false.
Proof.
  intros Ht Ht' Hne. unfold fillers, txt in Ht, Ht'. simpl in Ht, Ht'.
  repeat (destruct Ht as [<- | Ht]; [|]);
    try (destruct Ht);
    repeat (destruct Ht' as [<- | Ht']; [first [congruence | reflexivity]|]);
    destruct Ht'.
Qed.

Lemma delete_other_filler (t t' R : str) :
  In t fillers -> In t' fillers -> t <> t' ->
  Py.delete_all t (t' ++ R) = t' ++ Py.delete_all t R.
Proof.
  intros Ht Ht' Hne.
  pose proof (filler_not_prefix t t' R Ht Ht' Hne) as Hstart.
  destruct (filler_shape t' Ht') as (t0' & tl' & -> & _ & Htl' & _).
  destruct (filler_shape t Ht) as (t0 & tl & -> & _ & _ & _).
  simpl app in *. rewrite delete_all_cons, Hstart.
  now rewrite (delete_all_keep_inner (t0 :: tl) tl' R Ht Htl').
Qed.

(** Deleting one filler from a sequence of fillers leaves the other
    fillers of the sequence. *)
Lemma delete_all_concat (t : str) (tail : list str) :
  In t fillers -> Forall (fun f => In f fillers) tail ->
  Py.delete_all t (concat tail)
  = concat (List.filter (fun f => negb (bool_decide (f = t))) tail).
Proof.
  intros Ht Htail.
  induction Htail as [|f fs Hf _ IH]; simpl.
  - apply delete_all_nil.
  - case_bool_decide as Heq; simpl.
    + subst f. destruct (filler_shape t Ht) as (t0 & tl & -> & _).
      rewrite delete_all_self_app. exact IH.
    + rewrite delete_other_filler by congruence. now rewrite IH.
Qed.

Lemma concat_fillers_at_boundary (tail : list str) :
  Forall (fun f => In f fillers) tail -> at_boundary (concat tail).
Proof.
  intros [|f fs Hf _]; simpl; [exact I|].
  destruct (filler_shape f Hf) as (t0 & tl & -> & Ht0 & _). exact Ht0.
Qed.

End FillerFacts.

(** ** Blanks at the ends *)

Section StripFacts.

Local Abbreviation blank := (fun c => Py.is_space c = true).

Lemma lstrip_blank_app (W A : str) :
  Forall blank W -> Py.lstrip (W ++ A) = Py.lstrip A.
Proof.
  induction 1 as [|w W Hw _ IH]; simpl; [reflexivity|]. now rewrite Hw.
Qed.

Lemma lstrip_split (s : str) :
  exists W, Forall blank W /\ s = W ++ Py.lstrip s.
Proof.
  induction s as [|c s (W & HW & IH)]; simpl.
  - now exists [].
  - destruct (Py.is_space c) eqn:Hc.
    + exists (c :: W). split; [now constructor|]. simpl. now f_equal.
    + now exists [].
Qed.

Lemma rstrip_split (s : str) :
  exists W, Forall blank W /\ s = Py.rstrip s ++ W.
Proof.
  destruct (lstrip_split (rev s)) as (W & HW & Hs).
  exists (rev W). split; [now apply List.Forall_rev|].
  unfold Py.rstrip. rewrite <- rev_app_distr, <- Hs. now rewrite rev_involutive.
Qed.

Lemma lstrip_app_not_blank (X C : str) :
  Spec.not_blank X -> Py.lstrip (X ++ C) = Py.lstrip X ++ C.
Proof.
  induction 1 as [x X Hx | x X _ IH]; simpl.
  - now rewrite Hx.
  - destruct (Py.is_space x); [exact IH | reflexivity].
Qed.

Lemma rstrip_app_blank (A W : str) :
  Forall blank W -> Py.rstrip (A ++ W) = Py.rstrip A.
Proof.
  intros HW. unfold Py.rstrip. rewrite rev_app_distr.
  rewrite lstrip_blank_app; [reflexivity | now apply List.Forall_rev].
Qed.

Lemma lstrip_all_blank (W : str) : Forall blank W -> Py.lstrip W = [].
Proof.
  intros HW. rewrite <- (app_nil_r W). now rewrite lstrip_blank_app.
Qed.

Lemma strip_app_blank (A W : str) :
  Forall blank W -> Py.strip (A ++ W) = Py.strip A.
Proof.
  intros HW. unfold Py.strip.
  destruct (lstrip_split A) as (V & HV & HA).
  destruct (Py.lstrip A) as [|a A'] eqn:Hl.
  - rewrite app_nil_r in HA. subst A.
    rewrite lstrip_all_blank; [reflexivity|].
    apply Forall_app. now split.
  - rewrite HA at 1. rewrite <- app_assoc, lstrip_blank_app by assumption.
    change ((a :: A') ++ W) with (a :: (A' ++ W)).
    assert (Py.is_space a = false) as Ha.
    { clear -Hl. induction A as [|c A IH]; simpl in Hl; [discriminate|].
      destruct (Py.is_space c) eqn:Hc; [now apply IH|]. congruence. }
    simpl. rewrite Ha.
    change (a :: A' ++ W) with ((a :: A') ++ W).
    now apply rstrip_app_blank.
Qed.

Lemma rstrip_snoc (s : str) (z : ascii) :
  Py.is_space z = false -> Py.rstrip (s ++ [z]) = s ++ [z].
Proof.
  intros Hz. unfold Py.rstrip. rewrite rev_app_distr. simpl. rewrite Hz.
  simpl. now rewrite rev_involutive.
Qed.

Lemma is_space_lower_char (c : ascii) :
  Py.is_space (Py.lower_char c) = Py.is_space c.
Proof. destruct c as [[] [] [] [] [] [] [] []]; reflexivity. Qed.

Lemma not_blank_lower (s : str) :
  Spec.not_blank s -> Spec.not_blank (Py.lower s).
Proof.
  unfold Spec.not_blank, Py.lower. rewrite !List.Exists_exists.
  intros (c & Hc & Hs). exists (Py.lower_char c). split.
  - now apply in_map.
  - now rewrite is_space_lower_char.
Qed.

End StripFacts.

(** ** Fillers after a name *)

Section CleaningFacts.

Import Graph.

Local Arguments Py.delete_all : simpl never.

Local Abbreviation stages fs s :=
  (fold_left (fun cleaned filler => Py.delete_all filler cleaned) fs s).
Local Abbreviation blank := (fun c => Py.is_space c = true).

Lemma filter_filter {A : Type} (g h : A -> bool) (l : list A) :
  List.filter g (List.filter h l) = List.filter (fun x => h x && g x) l.
Proof.
  induction l as [|x l IH]; simpl; [reflexivity|].
  destruct (h x); simpl; [destruct (g x)|]; now rewrite IH.
Qed.

Lemma filter_all {A : Type} (l : list A) :
  List.filter (fun _ => true) l = l.
Proof. induction l as [|x l IH]; simpl; now rewrite ?IH. Qed.

Lemma Forall_filter_keep {A : Type} (P : A -> Prop) (f : A -> bool)
    (l : list A) :
  Forall P l -> Forall P (List.filter f l).
Proof.
  rewrite !List.Forall_forall. intros H x Hx.
  apply List.filter_In in Hx as [Hx _]. auto.
Qed.

(** The deletions, one filler after the other, take from a trailing
    sequence of fillers those they are run for. *)
Lemma stages_app_fillers (fs : list str) :
  (forall f, In f fs -> In f fillers) ->
  forall (Z : str) (tail : list str),
    Forall (fun f => In f fillers) tail ->
    stages fs (Z ++ concat tail)
    = stages fs Z
      ++ concat (List.filter (fun f => negb (Py.in_list f fs)) tail).
Proof.
  induction fs as [|a fs IH]; intros Hfs Z tail Htail; simpl.
  - now rewrite filter_all.
  - rewrite delete_all_app_boundary;
      [| apply Hfs; now left | now apply concat_fillers_at_boundary].
    rewrite delete_all_concat; [| apply Hfs; now left | assumption].
    rewrite IH;
      [| intros f Hf; apply Hfs; now right | now apply Forall_filter_keep].
    rewrite filter_filter. f_equal. f_equal.
    apply List.filter_ext. intros f. now rewrite negb_orb.
Qed.

Lemma blank_boundary (c : ascii) :
  Py.is_space c = true -> Spec.boundary_char c = true.
Proof. intros H. unfold Spec.boundary_char. now rewrite H. Qed.

Lemma inner_not_blank (c : ascii) :
  Spec.boundary_char c = false -> Py.is_space c = false.
Proof.
  unfold Spec.boundary_char. intros H.
  apply orb_false_iff in H as [H _]. now apply orb_false_iff in H as [H _].
Qed.

Lemma space_neq (a w : ascii) :
  Py.is_space a = false -> Py.is_space w = true -> (a =? w)%char = false.
Proof.
  intros Ha Hw. destruct (Ascii.eqb_spec a w); [congruence | reflexivity].
Qed.

(** No filler occurs in a run of blanks. *)
Lemma delete_all_blank (t W : str) :
  In t fillers -> Forall blank W -> Py.delete_all t W = W.
Proof.
  intros Ht HW.
  destruct (filler_shape t Ht) as (t0 & tl & -> & _ & Htl & Hone).
  induction HW as [|w W Hw HW IH]; [reflexivity|].
  rewrite delete_all_cons. simpl Py.startswith.
  replace ((t0 =? w)%char && Py.startswith tl W) with false;
    [now rewrite IH|].
  symmetry. destruct tl as [|t1 tl].
  - rewrite (space_neq t0 w); [reflexivity | now apply Hone | assumption].
  - apply andb_false_iff. right.
    destruct HW as [|w' W Hw' _]; [reflexivity|]. simpl.
    inversion Htl as [|? ? Ht1 _]; subst.
    rewrite (space_neq t1 w'); [reflexivity | now apply inner_not_blank
                               | assumption].
Qed.

Lemma stages_app_blank (fs : list str) :
  (forall f, In f fs -> In f fillers) ->
  forall (Y W : str),
    Forall blank W -> stages fs (Y ++ W) = stages fs Y ++ W.
Proof.
  induction fs as [|a fs IH]; intros Hfs Y W HW; simpl; [reflexivity|].
  rewrite delete_all_app_boundary; [| apply Hfs; now left |].
  - rewrite (delete_all_blank a W); [| apply Hfs; now left | assumption].
    apply IH; [intros f Hf; apply Hfs; now right | assumption].
  - destruct HW as [|w W Hw _]; [exact I | now apply blank_boundary].
Qed.

(** Every filler ends with a character that is not a blank, and is in
    lower case. *)
Lemma filler_last (t : str) :
  In t fillers ->
  (exists body z, t = body ++ [z] /\ Py.is_space z = false)
  /\ Py.lower t = t.
Proof.
  intros H. unfold fillers, txt in H. simpl in H.
  repeat (destruct H as [<- | H];
          [ split; [|reflexivity];
            match goal with
            | |- exists body z, ?t = _ /\ _ =>
                exists (removelast t), (List.last t " "%char);
                split; reflexivity
            end
          | ]).
  destruct H.
Qed.

Lemma concat_fillers_last (tail : list str) :
  tail <> [] -> Forall (fun f => In f fillers) tail ->
  exists s z, concat tail = s ++ [z] /\ Py.is_space z = false.
Proof.
  intros Hne Htail.
  destruct (exists_last Hne) as (front & t & ->).
  apply Forall_app in Htail as [_ Ht]. inversion Ht as [|? ? Hin _]; subst.
  destruct (filler_last t Hin) as [(body & z & -> & Hz) _].
  exists (concat front ++ body), z. split; [|assumption].
  rewrite concat_app. simpl. now rewrite app_nil_r, app_assoc.
Qed.

Lemma lower_concat_fillers (tail : list str) :
  Forall (fun f => In f fillers) tail ->
  Py.lower (concat tail) = concat tail.
Proof.
  induction 1 as [|f fs Hf _ IH]; simpl; [reflexivity|].
  unfold Py.lower in *. rewrite map_app, IH.
  destruct (filler_last f Hf) as [_ Hl]. unfold Py.lower in Hl.
  now rewrite Hl.
Qed.

(** The cleaned reply of a name followed by fillers is the cleaned
    name. *)
Lemma clean_with_fillers (name : str) (tail : list str) :
  Spec.not_blank name ->
  Forall (fun f => In f fillers) tail ->
  clean_user_response (Spec.with_fillers name tail)
  = clean_user_response name.
Proof.
  intros Hname Htail. unfold Spec.with_fillers.
  destruct tail as [|t0 tail0] eqn:Et; [simpl; now rewrite app_nil_r|].
  rewrite <- Et in *. assert (tail <> []) as Hne by (subst; discriminate).
  clear Et t0 tail0.
  unfold clean_user_response.
  assert (Py.lower (name ++ concat tail) = Py.lower name ++ concat tail) as ->.
  { unfold Py.lower. rewrite map_app.
    pose proof (lower_concat_fillers tail Htail) as Hl.
    unfold Py.lower in Hl. now rewrite Hl. }
  apply not_blank_lower in Hname.
  set (X := Py.lower name) in *.
  assert (Py.strip (X ++ concat tail) = Py.lstrip X ++ concat tail) as ->.
  { unfold Py.strip. rewrite lstrip_app_not_blank by assumption.
    destruct (concat_fillers_last tail Hne Htail) as (s & z & -> & Hz).
    rewrite app_assoc. now apply rstrip_snoc. }
  rewrite stages_app_fillers; [| auto | assumption].
  rewrite (filter_none (fun f => negb (Py.in_list f fillers)) tail).
  2:{ eapply List.Forall_impl; [|exact Htail].
      intros f Hf. apply in_list_In in Hf. cbv beta. now rewrite Hf. }
  simpl concat. rewrite app_nil_r.
  unfold Py.strip at 3.
  destruct (rstrip_split (Py.lstrip X)) as (W & HW & Hsplit).
  set (Y := Py.rstrip (Py.lstrip X)) in *.
  rewrite Hsplit.
  rewrite stages_app_blank; [| auto | assumption].
  now apply strip_app_blank.
Qed.

Lemma lower_char_idem (c : ascii) :
  Py.lower_char (Py.lower_char c) = Py.lower_char c.
Proof. destruct c as [[] [] [] [] [] [] [] []]; reflexivity. Qed.

Lemma lower_idem (s : str) : Py.lower (Py.lower s) = Py.lower s.
Proof.
  unfold Py.lower. rewrite map_map. apply map_ext. apply lower_char_idem.
Qed.

Lemma lower_concat (parts : list str) :
  Py.lower (concat parts) = concat (map Py.lower parts).
Proof. unfold Py.lower. apply concat_map. Qed.

(** Cleaning starts by lower-casing, so it does not see the case. *)
Lemma clean_lower (s : str) :
  clean_user_response (Py.lower s) = clean_user_response s.
Proof. unfold clean_user_response. now rewrite lower_idem. Qed.

(** The same for fillers written in any letter case. *)
Lemma clean_with_filler_tokens (name : str) (tail : list str) :
  Spec.not_blank name ->
  Forall Spec.filler_token tail ->
  clean_user_response (Spec.with_fillers name tail)
  = clean_user_response name.
Proof.
  intros Hname Htail.
  rewrite <- clean_lower, <- (clean_lower name).
  unfold Spec.with_fillers.
  assert (Py.lower (name ++ concat tail)
          = Py.lower name ++ concat (map Py.lower tail)) as ->.
  { rewrite <- lower_concat. unfold Py.lower. apply map_app. }
  apply (clean_with_fillers (Py.lower name) (map Py.lower tail)).
  - now apply not_blank_lower.
  - apply List.Forall_map. exact Htail.
Qed.

End CleaningFacts.

Section FillerTolerance.

Import Graph.


End FillerTolerance.

(** ** Reading the candidates back from the clarification message *)

Section ExtractionFacts.

Import EntityResolver Graph.

Local Abbreviation blank := (fun c => Py.is_space c = true).

Lemma has_char_app (c : ascii) (a b : str) :
  Py.has_char c (a ++ b) = Py.has_char c a || Py.has_char c b.
Proof. unfold Py.has_char. apply existsb_app. Qed.

Lemma has_char_cons (c d : ascii) (s : str) :
  Py.has_char c (d :: s) = (c =? d)%char || Py.has_char c s.
Proof. reflexivity. Qed.

Lemma has_char_join (c : ascii) (sep : str) (parts : list str) :
  Py.has_char c sep = false ->
  Forall (fun p => Py.has_char c p = false) parts ->
  Py.has_char c (Py.join sep parts) = false.
Proof.
  intros Hsep. induction 1 as [|p parts Hp Hparts IH]; [reflexivity|].
  destruct parts as [|q parts]; [exact Hp|].
  change (Py.join sep (p :: q :: parts))
    with (p ++ sep ++ Py.join sep (q :: parts)).
  now rewrite !has_char_app, Hp, Hsep, IH.
Qed.

(** The search passes over a text without colon. *)
Lemma search_skip (A B : str) :
  Py.has_char ":"%char A = false ->
  search_candidates_str (A ++ B) = search_candidates_str B.
Proof.
  induction A as [|a A IH]; [reflexivity|].
  rewrite has_char_cons. intros H. apply orb_false_iff in H as [Ha HA].
  simpl. rewrite Ascii.eqb_sym, Ha. now apply IH.
Qed.

Lemma upto_dot_app (B after : str) :
  Py.has_char "."%char B = false ->
  upto_dot (B ++ "."%char :: after) = Some (B, after).
Proof.
  induction B as [|b B IH]; [reflexivity|].
  rewrite has_char_cons. intros H. apply orb_false_iff in H as [Hb HB].
  simpl. rewrite Ascii.eqb_sym, Hb. now rewrite IH.
Qed.

Lemma lstrip_length (s : str) : length (Py.lstrip s) <= length s.
Proof.
  induction s as [|c s IH]; simpl; [lia|].
  destruct (Py.is_space c); simpl; lia.
Qed.

Lemma rstrip_length (s : str) : length (Py.rstrip s) <= length s.
Proof.
  unfold Py.rstrip. rewrite length_rev.
  pose proof (lstrip_length (rev s)) as H. now rewrite length_rev in H.
Qed.

(** A plain name begins with a character that is not a blank. *)
Lemma plain_name_head (c : str) :
  Spec.plain_name c ->
  exists a c', c = a :: c' /\ Py.is_space a = false.
Proof.
  intros (Hne & _ & _ & Hstrip).
  destruct c as [|a c']; [congruence|]. exists a, c'. split; [reflexivity|].
  destruct (Py.is_space a) eqn:Ha; [|reflexivity].
  exfalso. unfold Py.strip in Hstrip. simpl in Hstrip. rewrite Ha in Hstrip.
  pose proof (rstrip_length (Py.lstrip c')) as H1.
  pose proof (lstrip_length c') as H2.
  rewrite Hstrip in H1. simpl in H1. lia.
Qed.

Lemma strip_blank_plain (W c : str) :
  Forall blank W -> Py.strip c = c -> Py.strip (W ++ c) = c.
Proof.
  intros HW Hc. unfold Py.strip in *. now rewrite lstrip_blank_app.
Qed.

Lemma split_on_plain (sep : ascii) (s : str) :
  Py.has_char sep s = false -> Py.split_on sep s = [s].
Proof.
  induction s as [|c s IH]; [reflexivity|].
  rewrite has_char_cons. intros H. apply orb_false_iff in H as [Hc Hs].
  simpl. rewrite Ascii.eqb_sym, Hc. now rewrite IH.
Qed.

Lemma split_on_app (sep : ascii) (a rest : str) :
  Py.has_char sep a = false ->
  Py.split_on sep (a ++ sep :: rest) = a :: Py.split_on sep rest.
Proof.
  induction a as [|x a IH].
  - intros _. simpl. now rewrite Ascii.eqb_refl.
  - rewrite has_char_cons. intros H. apply orb_false_iff in H as [Hx Ha].
    simpl. rewrite Ascii.eqb_sym, Hx. now rewrite IH.
Qed.

(** Splitting the joined names at the commas and stripping the pieces
    gives the names back. *)
Lemma split_join_plain (active : list str) :
  Forall Spec.plain_name active -> active <> [] ->
  forall W, Forall blank W -> Py.has_char ","%char W = false ->
    map Py.strip (Py.split_on ","%char (W ++ Py.join (txt ", ") active))
    = active.
Proof.
  induction 1 as [|c active Hc Hactive IH]; [congruence|].
  intros _ W HW HWc. destruct Hc as (_ & _ & Hcomma & Hstrip).
  destruct active as [|c2 active].
  - simpl Py.join. rewrite split_on_plain.
    + simpl. now rewrite strip_blank_plain.
    + now rewrite has_char_app, HWc, Hcomma.
  - change (Py.join (txt ", ") (c :: c2 :: active))
      with (c ++ ","%char :: [" "%char] ++ Py.join (txt ", ") (c2 :: active)).
    rewrite app_assoc, split_on_app
      by now rewrite has_char_app, HWc, Hcomma.
    rewrite map_cons, strip_blank_plain by assumption.
    f_equal. apply (IH ltac:(discriminate) [" "%char]);
      [repeat constructor | reflexivity].
Qed.

Lemma contains_app_r (needle A B : str) :
  Py.contains needle B = true -> Py.contains needle (A ++ B) = true.
Proof.
  intros H. induction A as [|a A IH]; [exact H|].
  simpl. rewrite IH. apply orb_true_r.
Qed.

Lemma join_plain_head (active : list str) :
  Forall Spec.plain_name active -> active <> [] ->
  exists a J, Py.join (txt ", ") active = a :: J /\ Py.is_space a = false.
Proof.
  intros [|c others Hc _] Hne; [congruence|].
  destruct (plain_name_head c Hc) as (a & c' & -> & Ha).
  destruct others as [|c2 others]; simpl; eauto.
Qed.

(** The regular expression finds the joined names in the message the
    disambiguator builds. *)
Lemma search_clarification_message
    (player_name : str) (seasons : list str) (active : list str) :
  Py.has_char ":"%char player_name = false ->
  Py.has_char ":"%char (Py.repr_list seasons) = false ->
  Forall Spec.plain_name active -> active <> [] ->
  search_candidates_str (clarification_message player_name seasons active)
  = Some (Py.join (txt ", ") active).
Proof.
  intros Hname Hseasons Hactive Hne. unfold clarification_message.
  rewrite search_skip by reflexivity.
  rewrite search_skip by assumption.
  rewrite search_skip by reflexivity.
  rewrite search_skip by assumption.
  assert (Py.has_char "."%char (Py.join (txt ", ") active) = false) as Hdot.
  { apply has_char_join; [reflexivity|].
    eapply List.Forall_impl; [|exact Hactive]. now intros c (_ & H & _). }
  destruct (join_plain_head active Hactive Hne) as (a & J & HJ & Ha).
  change (txt ": " ++ Py.join (txt ", ") active
                   ++ txt ". Which player did you mean?")
    with (":"%char :: (" "%char :: Py.join (txt ", ") active)
                      ++ "."%char :: txt " Which player did you mean?").
  cbn [search_candidates_str]. rewrite Ascii.eqb_refl.
  unfold match_after_colon. rewrite upto_dot_app by exact Hdot.
  replace (Py.startswith (txt "which")
             (Py.lower (Py.lstrip (txt " Which player did you mean?"))))
    with true by reflexivity.
  cbn [Py.lstrip]. replace (Py.is_space " ") with true by reflexivity.
  rewrite HJ. cbn [Py.lstrip]. now rewrite Ha.
Qed.

Lemma clarification_message_is_question
    (player_name : str) (seasons : list str) (active : list str) :
  Py.contains (txt "which player did you mean?")
              (Py.lower (clarification_message player_name seasons active))
  = true.
Proof.
  unfold clarification_message, Py.lower. rewrite !map_app.
  do 6 apply contains_app_r. reflexivity.
Qed.

End ExtractionFacts.

Section CandidateSource.

Import EntityResolver Graph Fixtures.

(** C3, as the code has it.  The resolver has no stored candidate list:
    its candidates are read back from the text of the last assistant
    turn (the capture of the regular expression, split at the commas,
    each piece stripped).  When that turn carries the message the
    disambiguator builds, the queried name and the printed seasons have
    no colon, and the active candidates are plain names (not empty, no
    full stop, no comma, no blank at either end), the candidates read
    back are the active candidates in lookup order, and the block
    resolves exactly as matching the reply against them does. *)
Theorem candidates_read_back_from_message
    (state : AgentState) (last_assistant_msg : Message)
    (player_name : str) (seasons active : list str) :
  2 <= length (conversation_history state) ->
  last_with_role (txt "assistant") (conversation_history state)
  = Some last_assistant_msg ->
  msg_content last_assistant_msg
  = Some (clarification_message player_name seasons active) ->
  Py.has_char ":"%char player_name = false ->
  Py.has_char ":"%char (Py.repr_list seasons) = false ->
  Forall Spec.plain_name active ->
  active <> [] ->
  split_candidates
    <$> search_candidates_str (default [] (msg_content last_assistant_msg))
  = Some active
  /\ understand_node state
     = (fun matched_candidate =>
          {| conversation_history := conversation_history state;
             user_query := user_query state;
             entities :=
               Some (resolved_entities matched_candidate
                                       (conversation_history state));
             intent := Some SIMPLE_STAT;
             requires_visualization := Some false;
             needs_clarification := Some false |})
       <$> resolve_reply active (user_query state).
Proof.
  intros Hlen Hlast Hcontent Hname Hseasons Hactive Hne.
  assert (split_candidates (Py.join (txt ", ") active) = active) as Hsplit.
  { unfold split_candidates.
    now apply (split_join_plain active Hactive Hne []). }
  split.
  - rewrite Hcontent. simpl default.
    rewrite search_clarification_message by assumption.
    change (Some (split_candidates (Py.join (txt ", ") active)) = Some active).
    now rewrite Hsplit.
  - unfold understand_node.
    destruct (Nat.leb_spec 2 (length (conversation_history state))); [|lia].
    rewrite Hlast, Hcontent. simpl default.
    rewrite clarification_message_is_question. simpl orb.
    rewrite search_clarification_message by assumption.
    rewrite Hsplit.
    now destruct (resolve_reply active (user_query state)).
Qed.

End CandidateSource.

(** ** The claims at concrete inputs *)

Section Instances.

Import EntityResolver Graph Fixtures.

(** Dangerfield in 2022: of the two namesakes only Patrick, the second of
    the lookup, has statistics in that season. *)
Lemma disambiguate_sole_active_resolves_witness :
  _disambiguate_player lookup (stats_from seasons_played)
                       (txt "Dangerfield") [txt "2022"]
  = Returns patrick.
Proof.
  apply (disambiguate_sole_active_resolves
           lookup (stats_from seasons_played)
           (txt "Dangerfield") [txt "2022"] [gordon] [] patrick).
  - reflexivity.
  - vm_compute. lia.
  - discriminate.
  - reflexivity.
  - repeat constructor.
Defined.

(** C5 as stated fails: for Daicos in 2025 both namesakes are active,
    and the call does not return; it ends by raising
    [NeedsClarification]. *)
Lemma disambiguate_ambiguity_not_returned :
  _disambiguate_player lookup (stats_from seasons_played)
                       (txt "Daicos") [txt "2025"]
  = Raises (NeedsClarification daicos_question)
  /\ ~ exists value,
         _disambiguate_player lookup (stats_from seasons_played)
                              (txt "Daicos") [txt "2025"]
         = Returns value.
Proof.
  assert (_disambiguate_player lookup (stats_from seasons_played)
                               (txt "Daicos") [txt "2025"]
          = Raises (NeedsClarification daicos_question)) as H
    by (vm_compute; reflexivity).
  split; [exact H|]. intros [v Hv]. rewrite H in Hv. discriminate.
Qed.

(** Daicos in 2025 raises, Dangerfield in 2022 returns. *)
Lemma disambiguate_ambiguity_is_raised_witness :
  2 <= length (List.filter (fun p => stats_from seasons_played p [txt "2025"])
                           (lookup (txt "Daicos")))
  /\ _disambiguate_player lookup (stats_from seasons_played)
                          (txt "Daicos") [txt "2025"]
     = Raises (NeedsClarification
                 (clarification_message (txt "Daicos") [txt "2025"]
                                        [josh; nick]))
  /\ exists p,
       _disambiguate_player lookup (stats_from seasons_played)
                            (txt "Dangerfield") [txt "2022"]
       = Returns p.
Proof.
  assert (2 <= length (List.filter
                         (fun p => stats_from seasons_played p [txt "2025"])
                         (lookup (txt "Daicos")))) as Hactive
    by (vm_compute; lia).
  split; [exact Hactive|]. split.
  - exact (proj1 (proj2 (disambiguate_ambiguity_is_raised
                           lookup (stats_from seasons_played)
                           (txt "Daicos") [txt "2025"]))
                 Hactive).
  - destruct (proj2 (proj2 (disambiguate_ambiguity_is_raised
                              lookup (stats_from seasons_played)
                              (txt "Dangerfield") [txt "2022"])))
      as (p & Hp & _).
    + discriminate.
    + vm_compute. lia.
    + now exists p.
Defined.

(** C6 at a concrete input: neither Dangerfield has statistics in 1999.
    The first of the lookup is returned, and what is returned is the
    bare candidate, the very outcome of a lookup whose only match he
    is: nothing in the result marks the fallback. *)
Theorem disambiguate_none_active_unmarked :
  _disambiguate_player lookup (stats_from seasons_played)
                       (txt "Dangerfield") [txt "1999"]
  = Returns gordon
  /\ _disambiguate_player (fun _ => [gordon]) (stats_from seasons_played)
                          (txt "Dangerfield") [txt "1999"]
     = _disambiguate_player lookup (stats_from seasons_played)
                            (txt "Dangerfield") [txt "1999"].
Proof. split; vm_compute; reflexivity. Qed.

(** C7 on the code: when the lookup finds nobody, no branch returns
    before [all_matches[0]] is read, and the call ends with the
    [IndexError] of indexing the empty list. *)
Theorem disambiguate_no_candidate_fails
    (has_stats_in_season : str -> list str -> bool)
    (player_name : str) (seasons : list str) :
  _disambiguate_player (fun _ => []) has_stats_in_season player_name seasons
  = Raises IndexError.
Proof. reflexivity. Qed.


(** The Daicos conversation: the question about 2025 goals opened the
    clarification, and its season and metric are in the state after the
    reply "Nick please", with Nick Daicos as player. *)
Lemma reply_carries_original_context_witness :
  exists state' recovered,
    understand_node (daicos_state (txt "Nick please")) = Some state'
    /\ entities state' = Some recovered
    /\ recovered !! "players" = Some [nick]
    /\ recovered !! "seasons" = Some [txt "2025"]
    /\ recovered !! "metrics" = Some [txt "goals"].
Proof.
  destruct (understand_node (daicos_state (txt "Nick please")))
    as [state'|] eqn:Hret; [|vm_compute in Hret; discriminate Hret].
  exists state'.
  destruct (reply_carries_original_context
              (daicos_state (txt "Nick please")) state'
              (assistant_msg daicos_question)
              (user_msg (txt "How many goals did Daicos kick in 2025?")
                        daicos_entities))
    as (cs & m & recovered & Hcs & Hm & He & Hp & Hs & Hmet).
  - exists [], [], [].
    split; [reflexivity|]. split; [reflexivity|]. split; [reflexivity|].
    split; constructor.
  - exact Hret.
  - exists recovered. split; [reflexivity|]. split; [exact He|].
    vm_compute in Hcs. injection Hcs as <-.
    vm_compute in Hm. injection Hm as <-.
    split; [exact Hp|]. split; [exact Hs | exact Hmet].
Defined.

(** The condition on the end of the history is needed.  Were the reply
    itself already stored as the last turn of the history, the reversed
    scan for the user turn would stop at it: the reply still resolves to
    Nick Daicos, but the season and the metric of the question that
    opened the clarification are not carried over. *)
Lemma stored_reply_turn_hides_opening_query :
  exists state' recovered,
    understand_node
      {| conversation_history :=
           [user_msg (txt "How many goals did Daicos kick in 2025?")
                     daicos_entities;
            assistant_msg daicos_question;
            {| msg_role := Some (txt "user");
               msg_content := Some (txt "Nick please");
               msg_entities := None |}];
         user_query := txt "Nick please";
         entities := None;
         intent := None;
         requires_visualization := None;
         needs_clarification := Some true |}
    = Some state'
    /\ entities state' = Some recovered
    /\ recovered !! "players" = Some [nick]
    /\ recovered !! "seasons" = Some []
    /\ recovered !! "metrics" = Some [].
Proof.
  eexists. eexists. split; [vm_compute; reflexivity|].
  split; [reflexivity|]. repeat split; vm_compute; reflexivity.
Qed.

(** C3 as stated fails.  For Smith in 2025 the disambiguator raises a
    clarification for the active candidates J. Smith and John Smith.
    Matched against that list, the reply John selects John Smith; but
    the block reads its candidates out of the message text, where the
    full stop of the first name ends the capture early: nothing is
    extracted and the reply is not resolved.  Nor is anything extracted
    from the question the notes quote, whose list ends in an ellipsis. *)
Lemma candidates_not_taken_from_stored_list :
  _disambiguate_player lookup (stats_from seasons_played)
                       (txt "Smith") [txt "2025"]
  = Raises (NeedsClarification smith_question)
  /\ smith_question
     = clarification_message (txt "Smith") [txt "2025"]
                             [txt "J. Smith"; txt "John Smith"]
  /\ resolve_reply [txt "J. Smith"; txt "John Smith"] (txt "John")
     = Some (txt "John Smith")
  /\ search_candidates_str smith_question = None
  /\ understand_node
       (reply_state
          (user_msg (txt "How many goals did Smith kick in 2025?")
                    (<["players" := [txt "Smith"]]>
                       (<["seasons" := [txt "2025"]]> ∅)))
          smith_question (txt "John") None)
     = None
  /\ search_candidates_str nick_question = None.
Proof. repeat split; vm_compute; reflexivity. Qed.

(** The Daicos question: the two names are read back from its text. *)
Lemma candidates_read_back_from_message_witness :
  split_candidates <$> search_candidates_str daicos_question
  = Some [josh; nick]
  /\ (understand_node (daicos_state (txt "Nick please")) = None
      <-> resolve_reply [josh; nick] (txt "Nick please") = None).
Proof.
  destruct (candidates_read_back_from_message
              (daicos_state (txt "Nick please"))
              (assistant_msg daicos_question)
              (txt "Daicos") [txt "2025"] [josh; nick])
    as [Hread Hnode].
  - vm_compute. lia.
  - reflexivity.
  - reflexivity.
  - reflexivity.
  - reflexivity.
  - repeat constructor; discriminate.
  - discriminate.
  - split; [exact Hread|]. rewrite Hnode.
    change (user_query (daicos_state (txt "Nick please")))
      with (txt "Nick please").
    destruct (resolve_reply [josh; nick] (txt "Nick please"));
      split; intros H; first [discriminate H | reflexivity].
Defined.

(** A team clarification: the reply "Bulldogs" to "Which team did you
    mean?" puts Western Bulldogs in the players slot and no team in the
    teams slot. *)
Lemma reply_fills_players_slot_witness :
  exists state' written,
    understand_node (team_state (txt "Bulldogs")) = Some state'
    /\ entities state' = Some written
    /\ written !! "players" = Some [txt "Western Bulldogs"]
    /\ written !! "teams" = Some [].
Proof.
  destruct (understand_node (team_state (txt "Bulldogs")))
    as [state'|] eqn:Hret; [|vm_compute in Hret; discriminate Hret].
  destruct (reply_fills_players_slot _ _ Hret)
    as (msg & cs & m & written & Hl & Hs & Hr & He & Hp & Ht).
  exists state', written.
  split; [reflexivity|]. split; [exact He|]. split; [|exact Ht].
  vm_compute in Hl. injection Hl as <-.
  vm_compute in Hs. injection Hs as <-.
  vm_compute in Hr. injection Hr as <-.
  exact Hp.
Defined.

(** The Daicos conversation with another intent held before the reply. *)
Lemma reply_resets_intent_witness :
  intent (daicos_state (txt "Nick please"))
  = Some (OTHER_INTENT "PLAYER_COMPARISON")
  /\ exists state',
       understand_node (daicos_state (txt "Nick please")) = Some state'
       /\ intent state' = Some SIMPLE_STAT
       /\ requires_visualization state' = Some false.
Proof.
  split; [reflexivity|].
  destruct (understand_node (daicos_state (txt "Nick please")))
    as [state'|] eqn:Hret; [|vm_compute in Hret; discriminate Hret].
  destruct (reply_resets_intent _ _ Hret) as (Hi & Hv & _).
  exists state'. split; [reflexivity|]. split; [exact Hi | exact Hv].
Defined.

End Instances.

(** ** Further facts on the two routines *)

Section CharacterFacts.

Local Arguments Py.delete_all : simpl never.

Lemma has_char_Forall (c : ascii) (s : str) :
  Py.has_char c s = false <-> Forall (fun d => (c =? d)%char = false) s.
Proof.
  induction s as [|d s IH]; simpl.
  - split; [constructor | reflexivity].
  - rewrite orb_false_iff, IH. split.
    + intros [H1 H2]. now constructor.
    + intros H. inversion H; subst. now split.
Qed.

Lemma Forall_lstrip (P : ascii -> Prop) (s : str) :
  Forall P s -> Forall P (Py.lstrip s).
Proof.
  induction 1 as [|c s Hc Hs IH]; simpl; [constructor|].
  destruct (Py.is_space c); [exact IH | now constructor].
Qed.

Lemma Forall_rstrip (P : ascii -> Prop) (s : str) :
  Forall P s -> Forall P (Py.rstrip s).
Proof.
  intros H. unfold Py.rstrip.
  apply List.Forall_rev, Forall_lstrip, List.Forall_rev, H.
Qed.

Lemma Forall_strip (P : ascii -> Prop) (s : str) :
  Forall P s -> Forall P (Py.strip s).
Proof. intros H. now apply Forall_rstrip, Forall_lstrip. Qed.

(** A deletion adds no character. *)
Lemma Forall_delete_all (P : ascii -> Prop) (old s : str) :
  Forall P s -> Forall P (Py.delete_all old s).
Proof.
  destruct old as [|o os]; [easy|].
  remember (length s) as n eqn:Hn. revert s Hn.
  induction n as [n IH] using lt_wf_ind. intros s Hn Hs.
  destruct s as [|c s]; [now rewrite delete_all_nil|].
  rewrite delete_all_cons. inversion Hs as [|? ? Hc Hs']; subst.
  pose proof (length_skipn (length os) s) as Hlen.
  destruct (Py.startswith (o :: os) (c :: s)).
  - eapply IH; [|reflexivity|now apply Forall_drop]. simpl. lia.
  - constructor; [assumption|]. eapply IH; [|reflexivity|assumption].
    simpl. lia.
Qed.

(** Deleting a one-character text leaves none of that character. *)
Lemma delete_all_char (c : ascii) (s : str) :
  Py.has_char c (Py.delete_all [c] s) = false.
Proof.
  induction s as [|d s IH]; [reflexivity|].
  rewrite delete_all_cons. simpl Py.startswith. rewrite andb_true_r.
  destruct (c =? d)%char eqn:Hcd; [exact IH|].
  now rewrite has_char_cons, Hcd, IH.
Qed.

Lemma lstrip_idem (s : str) : Py.lstrip (Py.lstrip s) = Py.lstrip s.
Proof.
  induction s as [|c s IH]; [reflexivity|]. simpl.
  destruct (Py.is_space c) eqn:Hc; [exact IH|]. simpl. now rewrite Hc.
Qed.

Lemma lstrip_fixed (s : str) :
  Py.lstrip s = s
  <-> match s with [] => True | c :: _ => Py.is_space c = false end.
Proof.
  destruct s as [|c s]; simpl; [tauto|].
  destruct (Py.is_space c) eqn:Hc; split; try congruence.
  intros H. pose proof (lstrip_length s) as Hl. rewrite H in Hl.
  simpl in Hl. lia.
Qed.

(** Stripping twice is stripping once. *)
Lemma strip_idem (s : str) : Py.strip (Py.strip s) = Py.strip s.
Proof.
  unfold Py.strip.
  assert (Py.lstrip (Py.rstrip (Py.lstrip s)) = Py.rstrip (Py.lstrip s)) as ->.
  { destruct (rstrip_split (Py.lstrip s)) as (W & _ & Hsplit).
    pose proof (proj1 (lstrip_fixed (Py.lstrip s)) (lstrip_idem s)) as Hhead.
    apply lstrip_fixed.
    destruct (Py.rstrip (Py.lstrip s)) as [|c t]; [exact I|].
    rewrite Hsplit in Hhead. exact Hhead. }
  unfold Py.rstrip at 1 2. rewrite rev_involutive.
  now rewrite lstrip_idem.
Qed.

Lemma lower_fixed (s : str) :
  Forall (fun c => Py.lower_char c = c) s -> Py.lower s = s.
Proof.
  induction 1 as [|c s Hc _ IH]; [reflexivity|].
  unfold Py.lower in *. simpl. now rewrite Hc, IH.
Qed.

End CharacterFacts.

Section ResolverFacts.

Import EntityResolver Graph.

Local Arguments Py.delete_all : simpl never.

Lemma find_first_part {A : Type} (f : A -> bool) (l1 l2 : list A) :
  Exists (fun x => f x = true) l1 ->
  List.find f (l1 ++ l2) = List.find f l1.
Proof.
  induction 1 as [x l Hx | x l _ IH]; simpl.
  - now rewrite Hx.
  - destruct (f x); [reflexivity | exact IH].
Qed.

(** The reversed scan does not reach the turns before a part of the
    history that holds a turn of the role. *)
Lemma last_with_role_recent (r : str) (older recent : list Message) :
  Exists (fun m => msg_role m = Some r) recent ->
  last_with_role r (older ++ recent) = last_with_role r recent.
Proof.
  intros H. unfold last_with_role. rewrite rev_app_distr.
  apply find_first_part. apply List.Exists_rev.
  eapply List.Exists_impl; [|exact H].
  intros m Hm. now apply bool_decide_eq_true.
Qed.

(** X1.  Only the recent turns count: when the end of the history holds
    an assistant turn and a user turn, whatever turns came before (an
    older clarification question, say) have no part in the outcome.  Two
    states with the same reply whose histories end alike leave the block
    with the same entities, intent and flags, or both unresolved. *)
Theorem understand_node_ignores_older_turns
    (older1 older2 recent : list Message) (s1 s2 : AgentState) :
  Exists (fun m => msg_role m = Some (txt "assistant")) recent ->
  Exists (fun m => msg_role m = Some (txt "user")) recent ->
  conversation_history s1 = older1 ++ recent ->
  conversation_history s2 = older2 ++ recent ->
  user_query s1 = user_query s2 ->
  (fun s => (entities s, intent s, requires_visualization s,
             needs_clarification s)) <$> understand_node s1
  = (fun s => (entities s, intent s, requires_visualization s,
               needs_clarification s)) <$> understand_node s2.
Proof.
  intros Ha Hu H1 H2 Hq.
  assert (2 <= length recent) as Hlen.
  { destruct recent as [|a [|b rest]]; simpl; try lia.
    - inversion Ha.
    - inversion Ha as [? ? Ha'|? ? Ha']; [|inversion Ha'].
      inversion Hu as [? ? Hu'|? ? Hu']; [|inversion Hu'].
      rewrite Ha' in Hu'. discriminate Hu'. }
  unfold understand_node, resolved_entities. rewrite H1, H2, Hq.
  rewrite !length_app.
  destruct (Nat.leb_spec 2 (length older1 + length recent)); [|lia].
  destruct (Nat.leb_spec 2 (length older2 + length recent)); [|lia].
  rewrite !(last_with_role_recent _ _ recent Ha).
  rewrite !(last_with_role_recent _ _ recent Hu).
  destruct (last_with_role (txt "assistant") recent) as [msg|]; [|reflexivity].
  destruct (_ || _); [|reflexivity].
  destruct (search_candidates_str _) as [cs|]; [|reflexivity].
  now destruct (resolve_reply _ _).
Qed.

Lemma last_with_role_none (r : str) (history : list Message) :
  Forall (fun m => msg_role m <> Some r) history ->
  last_with_role r history = None.
Proof.
  intros H. unfold last_with_role.
  rewrite <- (app_nil_r (rev history)), find_skip; [reflexivity|].
  apply List.Forall_rev. eapply List.Forall_impl; [|exact H].
  intros m Hm. now apply bool_decide_eq_false_2.
Qed.

(** X2.  The block leaves the turn to the ordinary extraction, without
    resolving anything, when the history has fewer than two turns, when
    it has no assistant turn, and when its latest assistant turn has no
    content. *)
Theorem understand_node_without_question (state : AgentState) :
  (length (conversation_history state) < 2 -> understand_node state = None)
  /\ (Forall (fun m => msg_role m <> Some (txt "assistant"))
             (conversation_history state) ->
      understand_node state = None)
  /\ (forall before last_msg after,
        conversation_history state = before ++ last_msg :: after ->
        msg_role last_msg = Some (txt "assistant") ->
        Forall (fun m => msg_role m <> Some (txt "assistant")) after ->
        msg_content last_msg = None ->
        understand_node state = None).
Proof.
  unfold understand_node. repeat split.
  - intros H.
    destruct (Nat.leb_spec 2 (length (conversation_history state)));
      [lia | reflexivity].
  - intros H. rewrite (last_with_role_none _ _ H).
    now destruct (2 <=? _)%nat.
  - intros before last_msg after Hh Hr Ha Hc. rewrite Hh.
    rewrite (last_with_role_latest _ _ _ _ Hr Ha), Hc.
    now destruct (2 <=? _)%nat.
Qed.

Lemma upto_dot_before (s before after : str) :
  upto_dot s = Some (before, after) ->
  Forall (fun d => ("." =? d)%char = false) before.
Proof.
  revert before after.
  induction s as [|c s IH]; intros before after; [discriminate|].
  cbn [upto_dot]. destruct (c =? ".")%char eqn:Hc.
  - intros [= <- _]. constructor.
  - destruct (upto_dot s) as [[b a]|]; [|discriminate].
    intros [= <- <-]. constructor; [|now apply (IH b a)].
    cbv beta. now rewrite Ascii.eqb_sym.
Qed.

Lemma last_In {A : Type} (l : list A) (d : A) :
  l <> [] -> In (List.last l d) l.
Proof.
  induction l as [|x l IH]; [congruence|]. intros _.
  destruct l as [|y l]; [now left|].
  right. apply IH. discriminate.
Qed.

(** The text captured by the regular expression has no full stop. *)
Lemma search_candidates_str_no_dot (content g : str) :
  search_candidates_str content = Some g ->
  Forall (fun d => ("." =? d)%char = false) g.
Proof.
  induction content as [|c rest IH]; [discriminate|].
  cbn [search_candidates_str].
  destruct (c =? ":")%char; [|exact IH].
  destruct (match_after_colon rest) as [g'|] eqn:Hm; [|exact IH].
  intros [= ->]. unfold match_after_colon in Hm.
  destruct (upto_dot rest) as [[before after]|] eqn:Hu; [|discriminate].
  pose proof (upto_dot_before _ _ _ Hu) as Hb.
  destruct (Py.startswith _ _); [|discriminate].
  destruct before as [|b0 before]; [discriminate|].
  destruct (Py.lstrip (b0 :: before)) as [|x l] eqn:Hl.
  - injection Hm as <-. constructor; [|constructor].
    rewrite List.Forall_forall in Hb. apply Hb.
    apply (last_In (b0 :: before) " "%char). discriminate.
  - injection Hm as <-. rewrite <- Hl. now apply Forall_lstrip.
Qed.

Lemma split_on_pieces (P : ascii -> Prop) (sep : ascii) (s : str) :
  Forall P s ->
  Forall (fun piece => Forall P piece /\ Py.has_char sep piece = false)
         (Py.split_on sep s).
Proof.
  induction 1 as [|c s Hc Hs IH]; simpl.
  - repeat constructor.
  - destruct (c =? sep)%char eqn:Hcs.
    + constructor; [split; [constructor | reflexivity] | exact IH].
    + destruct (Py.split_on sep s) as [|w ws].
      * constructor; [|constructor]. split; [now repeat constructor|].
        now rewrite has_char_cons, Ascii.eqb_sym, Hcs.
      * inversion IH as [|? ? [Hw Hsep] Hws]; subst.
        constructor; [|assumption]. split; [now constructor|].
        now rewrite has_char_cons, Ascii.eqb_sym, Hcs, Hsep.
Qed.

(** The names read off a capture are stripped and have neither comma nor
    full stop. *)
Lemma split_candidates_plain (g : str) :
  Forall (fun d => ("." =? d)%char = false) g ->
  Forall (fun c => Py.has_char "."%char c = false
                   /\ Py.has_char ","%char c = false
                   /\ Py.strip c = c)
         (split_candidates g).
Proof.
  intros Hg. unfold split_candidates. apply List.Forall_map.
  pose proof (split_on_pieces _ ","%char g Hg) as Hp.
  eapply List.Forall_impl; [|exact Hp].
  intros piece [Hdot Hcomma]. split; [|split].
  - apply has_char_Forall. now apply Forall_strip.
  - apply has_char_Forall, Forall_strip. now apply has_char_Forall.
  - apply strip_idem.
Qed.

Lemma resolve_reply_In (candidates : list str) (reply c : str) :
  resolve_reply candidates reply = Some c -> In c candidates.
Proof.
  intros H. apply resolve_reply_Some in H as (b & a & -> & _).
  apply in_or_app. right. now left.
Qed.

(** X3.  A name written to the players slot was read off the question's
    text: it is one of the comma-separated pieces of the capture, it has
    no full stop and no comma, and no blank at either end.  A candidate
    whose name has a full stop or a comma is never the resolution. *)
Theorem resolved_name_is_plain (state state' : AgentState) :
  understand_node state = Some state' ->
  exists matched_candidate written,
    entities state' = Some written
    /\ written !! "players" = Some [matched_candidate]
    /\ Py.has_char "."%char matched_candidate = false
    /\ Py.has_char ","%char matched_candidate = false
    /\ Py.strip matched_candidate = matched_candidate.
Proof.
  intros Hret.
  destruct (understand_node_Some _ _ Hret) as (msg & cs & m & _ & Hs & Hr & ->).
  exists m. eexists. split; [reflexivity|]. split.
  - rewrite resolved_entities_frame by discriminate. reflexivity.
  - apply resolve_reply_In in Hr.
    pose proof (split_candidates_plain cs (search_candidates_str_no_dot _ _ Hs))
      as Hplain.
    rewrite List.Forall_forall in Hplain. exact (Hplain m Hr).
Qed.

End ResolverFacts.

Section MatchingEdgeFacts.

Import EntityResolver Graph Fixtures.

Local Arguments Py.delete_all : simpl never.

Lemma candidate_matches_lower (r c c' : str) :
  Py.lower c = Py.lower c' -> candidate_matches r c = candidate_matches r c'.
Proof. intros H. unfold candidate_matches. now rewrite H. Qed.

Lemma filter_Forall2 {A : Type} (R : A -> A -> Prop) (f g : A -> bool)
    (l l' : list A) :
  (forall a b, R a b -> f a = g b) ->
  Forall2 R l l' -> Forall2 R (List.filter f l) (List.filter g l').
Proof.
  intros Hfg. induction 1 as [|a b l l' Hab _ IH]; simpl; [constructor|].
  rewrite (Hfg a b Hab). destruct (g b); [now constructor | exact IH].
Qed.

(** X4.  Letter case plays no part in the matching: two replies that
    agree up to case, matched against two candidate lists that agree
    name by name up to case, resolve to the candidate at the same place
    (the same name up to case), or both to nothing. *)
Theorem resolve_reply_ignores_case (cs cs' : list str) (r r' : str) :
  Forall2 (fun c c' => Py.lower c = Py.lower c') cs cs' ->
  Py.lower r = Py.lower r' ->
  Py.lower <$> resolve_reply cs r = Py.lower <$> resolve_reply cs' r'.
Proof.
  intros Hcs Hr.
  assert (clean_user_response r = clean_user_response r') as Hclean
    by now rewrite <- (clean_lower r), Hr, clean_lower.
  unfold resolve_reply, potential_matches. rewrite Hclean.
  pose proof (filter_Forall2 _
                (candidate_matches (clean_user_response r'))
                (candidate_matches (clean_user_response r'))
                cs cs'
                (fun a b => candidate_matches_lower _ a b) Hcs) as Hf.
  destruct Hf as [|m m' l l' Hm Hl]; [reflexivity|].
  destruct Hl; [simpl; now rewrite Hm | reflexivity].
Qed.

(** X5.  The candidate a reply resolves to stands exactly once in the
    list: a name listed twice (two namesakes with the same full name)
    matches twice whenever it matches, and is never the resolution. *)
Theorem resolved_candidate_listed_once (candidates : list str) (reply c : str) :
  resolve_reply candidates reply = Some c ->
  exists before after,
    candidates = before ++ c :: after /\ ~ In c before /\ ~ In c after.
Proof.
  intros H. apply resolve_reply_Some in H as (b & a & -> & Hc & Hrest).
  exists b, a. split; [reflexivity|].
  rewrite List.Forall_forall in Hrest.
  split; intros Hin; apply (Hrest c); auto using in_or_app.
Qed.

Lemma filter_keep_all {A : Type} (f : A -> bool) (l : list A) :
  (forall x, f x = true) -> List.filter f l = l.
Proof.
  intros Hf. induction l as [|x l IH]; [reflexivity|].
  simpl. now rewrite Hf, IH.
Qed.

(** X6.  A reply of which cleaning leaves nothing (an empty reply, a
    lone full stop or comma) has no word to miss, so it matches every
    candidate: against a single candidate it resolves to that candidate,
    against two or more it resolves to nothing. *)
Theorem empty_reply_matches_all (reply : str) :
  clean_user_response reply = [] ->
  (forall c, resolve_reply [c] reply = Some c)
  /\ (forall candidates,
        2 <= length candidates -> resolve_reply candidates reply = None).
Proof.
  intros Hclean.
  assert (forall l, potential_matches l reply = l) as Hall.
  { intros l. unfold potential_matches. rewrite Hclean.
    apply filter_keep_all. intros c. unfold candidate_matches.
    now case_bool_decide. }
  unfold resolve_reply. split.
  - intros c. now rewrite Hall.
  - intros candidates Hlen. rewrite Hall.
    destruct candidates as [|a [|b l]]; simpl in Hlen; try lia. reflexivity.
Qed.

(** X7.  With two or more namesakes, an inactive one is never returned
    while another one is active in the requested seasons: whenever the
    routine returns and some candidate is active, the returned candidate
    is active. *)
Theorem disambiguate_prefers_active
    (query_players_like : str -> list str)
    (has_stats_in_season : str -> list str -> bool)
    (player_name : str) (seasons : list str) (p : str) :
  2 <= length (query_players_like player_name) ->
  Exists (fun c => has_stats_in_season c seasons = true)
         (query_players_like player_name) ->
  _disambiguate_player query_players_like has_stats_in_season
                       player_name seasons
  = Returns p ->
  has_stats_in_season p seasons = true.
Proof.
  intros Hlen Hactive. unfold _disambiguate_player.
  destruct (Nat.eqb_spec (length (query_players_like player_name)) 1); [lia|].
  destruct (List.filter _ (query_players_like player_name))
    as [|x [|y l]] eqn:Hf; simpl.
  - apply filter_nil_none in Hf. rewrite List.Exists_exists in Hactive.
    destruct Hactive as (c & Hc & Hc'). rewrite List.Forall_forall in Hf.
    rewrite (Hf c Hc) in Hc'. discriminate.
  - intros [= <-].
    assert (In x (List.filter (fun c => has_stats_in_season c seasons)
                              (query_players_like player_name))) as Hin
      by (rewrite Hf; now left).
    now apply List.filter_In in Hin.
  - discriminate.
Qed.

(** X8.  What cleaning leaves of a reply is in lower case, has no comma
    and no full stop, and no blank at either end. *)
Theorem cleaned_reply_shape (user_query : str) :
  Py.lower (clean_user_response user_query) = clean_user_response user_query
  /\ Py.has_char ","%char (clean_user_response user_query) = false
  /\ Py.has_char "."%char (clean_user_response user_query) = false
  /\ Py.strip (clean_user_response user_query)
     = clean_user_response user_query.
Proof.
  unfold clean_user_response, fillers. cbn [fold_left].
  set (u := Py.strip (Py.lower user_query)).
  split; [|split; [|split]].
  - apply lower_fixed. apply Forall_strip.
    do 7 apply Forall_delete_all. apply Forall_strip.
    unfold Py.lower. apply List.Forall_map, List.Forall_forall.
    intros c _. apply lower_char_idem.
  - apply has_char_Forall, Forall_strip.
    do 2 apply Forall_delete_all. apply has_char_Forall.
    apply delete_all_char.
  - apply has_char_Forall, Forall_strip.
    apply Forall_delete_all. apply has_char_Forall.
    apply delete_all_char.
  - apply strip_idem.
Qed.

End MatchingEdgeFacts.

(** ** The timeline chart *)

Section TimelineFacts.

Import CareerTimeline.

Lemma lookup_map {A B : Type} (f : A -> B) (l : list A) (i : nat) :
  map f l !! i = f <$> l !! i.
Proof.
  revert i. induction l as [|a l IH]; intros [|i]; simpl; auto.
Qed.

(** X9.  Every item of the timeline gets one row of the chart: the bar
    of item [i] lies at height [i], starts at the item's start date, is
    named after its company and coloured by its type; the start marker
    of index [i] lies at the bar's start and height and has the bar's
    colour as outline; and the tick at [i] carries the item's label.
    The plot holds the bars in order and one more trace, the markers;
    the chart is at least 55 pixels per item, plus 100, high. *)
Theorem timeline_rows_aligned
    (items : list TimelineItem) (i : nat) (item : TimelineItem) :
  items !! i = Some item ->
  exists trace,
    data items !! i = Some trace
    /\ y trace = (i, i)
    /\ (x trace).1 = DateOf (start_date item)
    /\ line_color trace = getColor (type item)
    /\ name trace = company item
    /\ marker_x (markers items) !! i = Some (x trace).1
    /\ marker_y (markers items) !! i = Some (y trace).2
    /\ marker_line_color (markers items) !! i = Some (line_color trace)
    /\ tickvals items !! i = Some i
    /\ ticktext items !! i = Some (tick_label item)
    /\ plot_data items !! i = Some (inl trace)
    /\ length (plot_data items) = S (length items)
    /\ length items * 55 + 100 <= height items.
Proof.
  intros Hi. unfold data, markers, tickvals, ticktext, plot_data, height.
  eexists. rewrite list_lookup_imap, Hi. simpl.
  split; [reflexivity|]. repeat split.
  - now rewrite lookup_map, Hi.
  - now rewrite list_lookup_imap, Hi.
  - now rewrite lookup_map, Hi.
  - now rewrite list_lookup_imap, Hi.
  - now rewrite lookup_map, Hi.
  - unfold data. rewrite lookup_app_l.
    + now rewrite lookup_map, list_lookup_imap, Hi.
    + rewrite length_map, length_imap. now apply lookup_lt_Some in Hi.
  - unfold data. rewrite length_app, length_map, length_imap. simpl. lia.
  - lia.
Qed.

End TimelineFacts.

(** ** The character controller *)

Section ControllerFacts.

Import CharacterController.

Lemma is_arrow_spec (key : string) :
  is_arrow key = true <-> key = "ArrowLeft" \/ key = "ArrowRight".
Proof.
  unfold is_arrow. rewrite orb_true_iff, !String.eqb_eq. tauto.
Qed.

Lemma step_invariant (c : Controller) (e : ControllerEvent) :
  (forall key, key ∈ keysPressed c -> is_arrow key = true) ->
  (disabled c = true -> keysPressed c = ∅) ->
  (forall key, key ∈ keysPressed (step c e) -> is_arrow key = true)
  /\ (disabled (step c e) = true -> keysPressed (step c e) = ∅).
Proof.
  intros Harrow Hdis. destruct e as [k|k|d]; simpl.
  - unfold handleKeyDown. destruct (disabled c) eqn:Hd; simpl.
    + split; [exact Harrow | exact Hdis].
    + split; [|discriminate]. intros key.
      destruct (is_arrow k) eqn:Hk; [|apply Harrow].
      rewrite elem_of_union, elem_of_singleton.
      intros [-> | H]; [exact Hk | now apply Harrow].
  - unfold handleKeyUp. split.
    + intros key. destruct (is_arrow k); [|apply Harrow].
      rewrite elem_of_difference. intros [H _]. now apply Harrow.
    + intros Hd. rewrite (Hdis Hd).
      destruct (is_arrow k); [apply difference_disjoint_L, disjoint_empty_l | reflexivity].
  - split.
    + intros key. destruct (d && negb (disabled c)); [set_solver|apply Harrow].
    + intros ->. destruct (disabled c) eqn:Hd; simpl; [now apply Hdis|reflexivity].
Qed.

(** X10.  Whatever keys go down and up and however the [disabled] prop
    changes after mounting, the keys reported as pressed are among the
    two arrow keys, and none is reported while the controller is
    disabled. *)
Theorem controller_keys_invariant
    (initially_disabled : bool) (events : list ControllerEvent) :
  (forall key,
      key ∈ keysPressed (run (mount initially_disabled) events) ->
      key = "ArrowLeft" \/ key = "ArrowRight")
  /\ (disabled (run (mount initially_disabled) events) = true ->
      keysPressed (run (mount initially_disabled) events) = ∅).
Proof.
  assert (forall c,
             (forall key, key ∈ keysPressed c -> is_arrow key = true) ->
             (disabled c = true -> keysPressed c = ∅) ->
             (forall key, key ∈ keysPressed (run c events) ->
                          is_arrow key = true)
             /\ (disabled (run c events) = true ->
                 keysPressed (run c events) = ∅)) as Hrun.
  { induction events as [|e events IH]; intros c H1 H2; [now split|].
    destruct (step_invariant c e H1 H2) as [H1' H2'].
    exact (IH (step c e) H1' H2'). }
  destruct (Hrun (mount initially_disabled)) as [H1 H2].
  - intros key. simpl. set_solver.
  - reflexivity.
  - split; [|exact H2]. intros key Hkey. now apply is_arrow_spec, H1.
Qed.

Lemma run_held (events : list ControllerEvent) :
  Forall key_event events ->
  forall (c : Controller) (key : string) (before : bool),
    disabled c = false ->
    is_arrow key = true ->
    (key ∈ keysPressed c <-> before = true) ->
    (key ∈ keysPressed (run c events) <-> held key events before = true).
Proof.
  induction 1 as [|e events He _ IH]; intros c key before Hd Hk Hb;
    [exact Hb|].
  destruct e as [k|k|d]; [| |destruct He]; simpl.
  - apply IH; [exact Hd | exact Hk |].
    simpl. unfold handleKeyDown. rewrite Hd. simpl.
    destruct (String.eqb_spec k key) as [->|Hne].
    + rewrite Hk. split; [reflexivity|]. intros _.
      apply elem_of_union. left. now apply elem_of_singleton.
    + destruct (is_arrow k); [|exact Hb].
      rewrite elem_of_union, elem_of_singleton. rewrite <- Hb.
      split; [intros [H|H]; [congruence|exact H] | now right].
  - apply IH; [exact Hd | exact Hk |].
    simpl. unfold handleKeyUp.
    destruct (String.eqb_spec k key) as [->|Hne].
    + rewrite Hk. split; [|discriminate].
      rewrite elem_of_difference, elem_of_singleton. tauto.
    + destruct (is_arrow k); [|exact Hb].
      rewrite elem_of_difference, elem_of_singleton. rewrite <- Hb.
      split; [tauto|]. intros H. split; [exact H | congruence].
Qed.

(** X11.  While the controller is enabled, an arrow key is reported as
    pressed exactly when its latest key event is a key-down: repeated
    key-downs of a held key change nothing, one key-up releases it, and
    the events of the other key or of any other key do not matter. *)
Theorem arrow_key_pressed_iff_held
    (events : list ControllerEvent) (key : string) :
  Forall key_event events ->
  key = "ArrowLeft" \/ key = "ArrowRight" ->
  (key ∈ keysPressed (run (mount false) events)
   <-> held key events false = true).
Proof.
  intros Hev Hkey. apply run_held; [exact Hev | reflexivity | |].
  - now apply is_arrow_spec.
  - simpl. split; [set_solver | discriminate].
Qed.

End ControllerFacts.

(** ** The animation loop *)

Section GameLoopFacts.

Import GameLoop.

Variable number : Type.
Variable minus : number -> number -> number.

Local Abbreviation ticks := (GameLoop.ticks number minus).
Local Abbreviation final := (GameLoop.final number minus).
Local Abbreviation deltas := (GameLoop.deltas number minus).
Local Abbreviation frames := (map (@AnimationFrame number)).

Lemma ticks_app (l : Loop number) (first second : list (LoopEvent number)) :
  ticks l (first ++ second) = ticks l first ++ ticks (final l first) second.
Proof.
  revert l. induction first as [|e first IH]; intros l; [reflexivity|].
  simpl. destruct (step number minus l e) as [l' [delta|]]; simpl;
    now rewrite IH.
Qed.

Lemma ticks_frames_from (t0 : number) (times : list number) :
  ticks {| previousTime := Some t0; requested := true |} (frames times)
  = deltas (t0 :: times).
Proof.
  revert t0. induction times as [|t1 times IH]; intros t0; [reflexivity|].
  simpl. f_equal. apply IH.
Qed.

Lemma ticks_frames_cancelled (l : Loop number) (times : list number) :
  requested l = false -> ticks l (frames times) = [].
Proof.
  intros Hl. induction times as [|t times IH]; [reflexivity|].
  simpl. now rewrite Hl.
Qed.

(** X12.  After a run of the effect with [isRunning] true, whatever
    happened before, the frames that follow call [onTick] with the
    differences of consecutive frame times, and the first of them calls
    nothing: no delta spans a pause.  After a run with [isRunning]
    false no frame ticks. *)
Theorem ticks_after_start_and_stop
    (l : Loop number) (events : list (LoopEvent number))
    (times : list number) :
  ticks l (events ++ Effect true :: frames times)
  = ticks l events ++ deltas times
  /\ ticks l (events ++ Effect false :: frames times)
     = ticks l events.
Proof.
  split; rewrite ticks_app; simpl.
  - f_equal. destruct times as [|t0 times]; [reflexivity|].
    simpl. apply ticks_frames_from.
  - rewrite ticks_frames_cancelled; [apply app_nil_r | reflexivity].
Qed.

End GameLoopFacts.

(** ** The visitor id and the tracked pages *)

Section AnalyticsFacts.

Import Analytics.

Lemma new_visitor_id_not_empty (now random36 : string) :
  new_visitor_id now random36 <> "".
Proof. unfold new_visitor_id. destruct now; discriminate. Qed.

Lemma getOrCreateVisitorId_stored (now random36 : string)
    (storage : gmap string string) :
  (getOrCreateVisitorId now random36 storage).1 <> ""
  /\ (getOrCreateVisitorId now random36 storage).2 !! VISITOR_ID_KEY
     = Some (getOrCreateVisitorId now random36 storage).1.
Proof.
  unfold getOrCreateVisitorId.
  destruct (storage !! VISITOR_ID_KEY) as [v|] eqn:Hv.
  - destruct (String.eqb_spec v "") as [->|Hne]; simpl.
    + split; [apply new_visitor_id_not_empty | apply lookup_insert_eq].
    + split; assumption.
  - simpl. split; [apply new_visitor_id_not_empty | apply lookup_insert_eq].
Qed.

Lemma getOrCreateVisitorId_kept (now random36 v : string)
    (storage : gmap string string) :
  storage !! VISITOR_ID_KEY = Some v -> v <> "" ->
  getOrCreateVisitorId now random36 storage = (v, storage).
Proof.
  intros Hv Hne. unfold getOrCreateVisitorId. rewrite Hv.
  now destruct (String.eqb_spec v "").
Qed.

(** X13.  The visitor id is made once: the call returns an id that is
    not empty and leaves it stored under [visitor_id]; every later call,
    whatever the clock and the random number, returns that same id and
    leaves the storage as it is; no other key of the storage is touched;
    and an id already stored (and not empty) is returned unchanged. *)
Theorem visitor_id_persists (now random36 : string)
    (storage : gmap string string) :
  (getOrCreateVisitorId now random36 storage).1 <> ""
  /\ (getOrCreateVisitorId now random36 storage).2 !! VISITOR_ID_KEY
     = Some (getOrCreateVisitorId now random36 storage).1
  /\ (forall later_now later_random36,
        getOrCreateVisitorId later_now later_random36
                             (getOrCreateVisitorId now random36 storage).2
        = getOrCreateVisitorId now random36 storage)
  /\ (forall key, key <> VISITOR_ID_KEY ->
                  (getOrCreateVisitorId now random36 storage).2 !! key
                  = storage !! key)
  /\ (forall v, storage !! VISITOR_ID_KEY = Some v -> v <> "" ->
                getOrCreateVisitorId now random36 storage = (v, storage)).
Proof.
  destruct (getOrCreateVisitorId_stored now random36 storage) as [Hne Hst].
  split; [exact Hne|]. split; [exact Hst|]. split; [|split].
  - intros later_now later_random36.
    rewrite (getOrCreateVisitorId_kept _ _ _ _ Hst Hne).
    now destruct (getOrCreateVisitorId now random36 storage).
  - intros key Hkey. unfold getOrCreateVisitorId.
    destruct (storage !! VISITOR_ID_KEY) as [v|];
      [destruct (String.eqb v "")|]; simpl;
      solve [reflexivity | now rewrite lookup_insert_ne].
  - intros v. apply getOrCreateVisitorId_kept.
Qed.

Lemma requests_with_stored_id (v : string) (runs : list (string * Environment)) :
  v <> "" ->
  forall t, localStorage t !! VISITOR_ID_KEY = Some v ->
    Forall (fun body => visitor_id body = v) (requests t runs).
Proof.
  intros Hne. induction runs as [|[pathname env] runs IH]; intros t Ht;
    [constructor|].
  simpl. case_bool_decide.
  - now apply IH.
  - rewrite (getOrCreateVisitorId_kept _ _ _ _ Ht Hne).
    constructor; [reflexivity|]. now apply IH.
Qed.

Lemma requests_pages (runs : list (string * Environment)) (t : Tracker) :
  map page (requests t runs) = changes (lastTrackedPath t) (map fst runs).
Proof.
  revert t. induction runs as [|[pathname env] runs IH]; intros t;
    [reflexivity|].
  simpl. case_bool_decide; [apply IH|].
  destruct (getOrCreateVisitorId _ _ _) as [id storage].
  simpl. f_equal. apply IH.
Qed.

(** X14.  Over any sequence of runs of the tracking effect, a request is
    sent exactly for the paths that differ from the path tracked last
    (a run for the same path again sends nothing), in order; and all the
    requests carry one and the same visitor id, whatever the clock and
    the random numbers of the runs. *)
Theorem tracking_skips_repeats (t : Tracker) (runs : list (string * Environment)) :
  map page (requests t runs) = changes (lastTrackedPath t) (map fst runs)
  /\ exists id, Forall (fun body => visitor_id body = id) (requests t runs).
Proof.
  split; [apply requests_pages|].
  induction runs as [|[pathname env] runs IH] in t |- *.
  - exists "". constructor.
  - simpl. case_bool_decide; [apply IH|].
    destruct (getOrCreateVisitorId_stored (now env) (random36 env)
                                          (localStorage t)) as [Hne Hst].
    destruct (getOrCreateVisitorId _ _ _) as [id storage]. simpl in *.
    exists id. constructor; [reflexivity|].
    now apply requests_with_stored_id.
Qed.

End AnalyticsFacts.

(** ** The radar polygon *)

Section RadarFacts.

Import SkillsRadar.

Variable number : Type.

Lemma closed_lookup {A : Type} (xs : list A) :
  length (closed xs) = S (length xs)
  /\ closed xs !! length xs = Some (head xs)
  /\ forall i x, xs !! i = Some x -> closed xs !! i = Some (Some x).
Proof.
  unfold closed. split; [|split].
  - rewrite length_app, length_map. simpl. lia.
  - rewrite lookup_app_r; rewrite length_map; [|lia].
    now rewrite Nat.sub_diag.
  - intros i x Hi. rewrite lookup_app_l.
    + now rewrite lookup_map, Hi.
    + rewrite length_map. now apply lookup_lt_Some in Hi.
Qed.

(** X15.  The radar is drawn through one point more than there are
    skills: names and values keep their order and stay paired, and the
    added last point is the first skill again, which closes the polygon.
    Without any skill the one point has an undefined name and value. *)
Theorem radar_polygon_closed (skills : list (string * number)) :
  length (closedNames number skills) = S (length skills)
  /\ length (closedValues number skills) = S (length skills)
  /\ (forall i skill value,
        skills !! i = Some (skill, value) ->
        closedNames number skills !! i = Some (Some skill)
        /\ closedValues number skills !! i = Some (Some value))
  /\ closedNames number skills !! length skills
     = Some (fst <$> head skills)
  /\ closedValues number skills !! length skills
     = Some (snd <$> head skills).
Proof.
  unfold closedNames, closedValues, skillNames, skillValues.
  destruct (closed_lookup (map fst skills)) as (Hn1 & Hn2 & Hn3).
  destruct (closed_lookup (map snd skills)) as (Hv1 & Hv2 & Hv3).
  rewrite length_map in Hn1, Hn2, Hv1, Hv2.
  split; [exact Hn1|]. split; [exact Hv1|]. split; [|split].
  - intros i skill value Hi. split.
    + apply Hn3. now rewrite lookup_map, Hi.
    + apply Hv3. now rewrite lookup_map, Hi.
  - rewrite Hn2. now destruct skills.
  - rewrite Hv2. now destruct skills.
Qed.

End RadarFacts.

(** ** The missing matches by year *)

Section IngestionFacts.

Import Ingestion.

Variable Match : Type.
Variable season : Match -> Z.

Local Abbreviation in_year y := (fun m : Match => (season m =? y)%Z).

(** X16.  Grouping the missing matches by year loses and invents
    nothing: the group kept for a year is the list of the missing
    matches of that season, in their order, and a year without a missing
    match has no group (so no group is empty). *)
Theorem group_by_year_lookup (missing : list Match) (year : Z) :
  group_by_year Match season missing !! year
  = match List.filter (in_year year) missing with
    | [] => None
    | m :: ms => Some (m :: ms)
    end.
Proof.
  unfold group_by_year.
  induction missing as [|m missing IH] using rev_ind; [reflexivity|].
  rewrite fold_left_app, List.filter_app. simpl. unfold add_match at 1.
  destruct (Z.eqb_spec (season m) year) as [->|Hne].
  - rewrite lookup_insert_eq, IH.
    now destruct (List.filter (in_year year) missing).
  - rewrite lookup_insert_ne by exact Hne. rewrite IH. now rewrite app_nil_r.
Qed.

End IngestionFacts.

(** ** Questions without a list, replies without a context *)

Section UnresolvedFacts.

Import Graph.

Lemma upto_dot_none (s : str) :
  Py.has_char "."%char s = false -> upto_dot s = None.
Proof.
  induction s as [|c s IH]; [reflexivity|].
  rewrite has_char_cons. intros H. apply orb_false_iff in H as [Hc Hs].
  cbn [upto_dot]. rewrite Ascii.eqb_sym, Hc. now rewrite IH.
Qed.

Lemma search_none_without_dot (content : str) :
  Py.has_char "."%char content = false ->
  search_candidates_str content = None.
Proof.
  induction content as [|c rest IH]; [reflexivity|].
  rewrite has_char_cons. intros H. apply orb_false_iff in H as [_ Hrest].
  cbn [search_candidates_str]. unfold match_after_colon.
  rewrite (upto_dot_none rest Hrest).
  destruct (c =? ":")%char; now apply IH.
Qed.

Lemma search_none_without_colon (content : str) :
  Py.has_char ":"%char content = false ->
  search_candidates_str content = None.
Proof.
  intros H. rewrite <- (app_nil_r content). now rewrite search_skip.
Qed.

(** X17.  A question that has no colon, or no full stop, gives no
    candidate list: whatever the reply, the block resolves nothing and
    the turn goes to the ordinary extraction. *)
Theorem question_without_list_unresolved
    (state : AgentState) (last_assistant_msg : Message) :
  last_with_role (txt "assistant") (conversation_history state)
  = Some last_assistant_msg ->
  Py.has_char ":"%char (default [] (msg_content last_assistant_msg)) = false
  \/ Py.has_char "."%char (default [] (msg_content last_assistant_msg)) = false ->
  understand_node state = None.
Proof.
  intros Hlast Hcontent. unfold understand_node. rewrite Hlast.
  assert (search_candidates_str (default [] (msg_content last_assistant_msg))
          = None) as ->
    by (destruct Hcontent;
        [now apply search_none_without_colon
        | now apply search_none_without_dot]).
  destruct (2 <=? _)%nat; [|reflexivity]. now destruct (_ || _).
Qed.

(** X18.  When the history has no user turn, or its latest user turn has
    no stored entities, a resolved reply has nothing to carry over: the
    entities written are the literal dictionary, with the matched
    candidate as only player and every other list empty. *)
Theorem resolved_without_stored_context (state state' : AgentState) :
  understand_node state = Some state' ->
  Forall (fun m => msg_role m <> Some (txt "user"))
         (conversation_history state)
  \/ (exists q, Spec.original_query (conversation_history state) q
                /\ msg_entities q = None) ->
  exists matched_candidate,
    entities state' = Some (fresh_entities matched_candidate).
Proof.
  intros Hret Hcontext.
  destruct (understand_node_Some _ _ Hret) as (_ & _ & m & _ & _ & _ & ->).
  exists m. simpl. f_equal. unfold resolved_entities.
  destruct Hcontext as [Hnone | (q & (b & a & -> & Hrole & Hafter) & Hq)].
  - now rewrite (last_with_role_none _ _ Hnone).
  - rewrite (last_with_role_latest _ _ _ _ Hrole Hafter), Hq. reflexivity.
Qed.

End UnresolvedFacts.

(** ** The further facts at concrete inputs *)

Section FurtherInstances.

Import EntityResolver Graph Fixtures.

(** A team question and its answer, older than the Daicos question,
    change nothing for the reply "Nick". *)
Lemma understand_node_ignores_older_turns_witness :
  (fun s => (entities s, intent s, requires_visualization s,
             needs_clarification s))
    <$> understand_node (daicos_state (txt "Nick"))
  = (fun s => (entities s, intent s, requires_visualization s,
               needs_clarification s))
      <$> understand_node
            {| conversation_history :=
                 [user_msg (txt "How did Western go in 2024?") ∅;
                  assistant_msg team_question]
                 ++ conversation_history (daicos_state (txt "Nick"));
               user_query := txt "Nick";
               entities := None;
               intent := None;
               requires_visualization := None;
               needs_clarification := None |}.
Proof.
  apply (understand_node_ignores_older_turns
           [] [user_msg (txt "How did Western go in 2024?") ∅;
               assistant_msg team_question]
           (conversation_history (daicos_state (txt "Nick")))).
  - apply Exists_cons_tl, Exists_cons_hd. reflexivity.
  - apply Exists_cons_hd. reflexivity.
  - reflexivity.
  - reflexivity.
  - reflexivity.
Defined.

(** The name resolved in the Daicos conversation is a plain one. *)
Lemma resolved_name_is_plain_witness :
  exists state' matched_candidate written,
    understand_node (daicos_state (txt "Nick please")) = Some state'
    /\ entities state' = Some written
    /\ written !! "players" = Some [matched_candidate]
    /\ Py.has_char "."%char matched_candidate = false
    /\ Py.has_char ","%char matched_candidate = false.
Proof.
  destruct (understand_node (daicos_state (txt "Nick please")))
    as [state'|] eqn:Hret; [|vm_compute in Hret; discriminate Hret].
  destruct (resolved_name_is_plain _ _ Hret)
    as (m & written & He & Hp & Hdot & Hcomma & _).
  exists state', m, written.
  split; [reflexivity|]. split; [exact He|]. split; [exact Hp|].
  split; [exact Hdot | exact Hcomma].
Defined.

(** "NICK" against the names in capitals resolves as "Nick" does. *)
Lemma resolve_reply_ignores_case_witness :
  Py.lower <$> resolve_reply [josh; nick] (txt "Nick")
  = Py.lower <$> resolve_reply [txt "JOSH DAICOS"; txt "NICK DAICOS"]
                               (txt "NICK").
Proof.
  apply resolve_reply_ignores_case.
  - repeat constructor.
  - reflexivity.
Defined.

(** Nick Daicos stands once in the list the reply "Nick" resolves in. *)
Lemma resolved_candidate_listed_once_witness :
  exists before after,
    [josh; nick] = before ++ nick :: after
    /\ ~ In nick before /\ ~ In nick after.
Proof.
  apply (resolved_candidate_listed_once [josh; nick] (txt "Nick") nick).
  vm_compute. reflexivity.
Defined.

(** A lone full stop is a reply of which cleaning leaves nothing. *)
Lemma empty_reply_matches_all_witness :
  resolve_reply [nick] (txt ".") = Some nick
  /\ resolve_reply [josh; nick] (txt ".") = None.
Proof.
  destruct (empty_reply_matches_all (txt ".")) as [Hone Hmany].
  - reflexivity.
  - split; [apply Hone | apply Hmany; vm_compute; lia].
Defined.

(** Dangerfield in 2022: the player returned has statistics in 2022. *)
Lemma disambiguate_prefers_active_witness :
  stats_from seasons_played patrick [txt "2022"] = true.
Proof.
  apply (disambiguate_prefers_active
           lookup (stats_from seasons_played) (txt "Dangerfield") [txt "2022"]).
  - vm_compute. lia.
  - apply Exists_cons_tl, Exists_cons_hd. reflexivity.
  - reflexivity.
Defined.

(** The second of two timeline items lies on row 1. *)
Lemma timeline_rows_aligned_witness :
  exists trace,
    CareerTimeline.data
      [ {| CareerTimeline.company := "University";
           CareerTimeline.title := "BSc";
           CareerTimeline.start_date := "2015-02-01";
           CareerTimeline.end_date := "2018-11-30";
           CareerTimeline.type := "education";
           CareerTimeline.highlight := None |};
        {| CareerTimeline.company := "Club";
           CareerTimeline.title := "Analyst";
           CareerTimeline.start_date := "2019-01-01";
           CareerTimeline.end_date := "Present";
           CareerTimeline.type := "work";
           CareerTimeline.highlight := Some "Built the chat" |} ] !! 1
    = Some trace
    /\ CareerTimeline.y trace = (1, 1)
    /\ CareerTimeline.line_color trace = "#3b82f6".
Proof.
  match goal with
  | |- exists trace, CareerTimeline.data ?items !! 1 = _ /\ _ =>
      destruct (timeline_rows_aligned items 1 _ eq_refl)
        as (trace & Hd & Hy & _ & Hc & _)
  end.
  exists trace. split; [exact Hd|]. split; [exact Hy | exact Hc].
Defined.

(** Left held (with auto-repeat), right released, another key typed:
    the left arrow is the key reported. *)
Lemma arrow_key_pressed_iff_held_witness :
  "ArrowLeft"
  ∈ CharacterController.keysPressed
      (CharacterController.run
         (CharacterController.mount false)
         [CharacterController.KeyDown "ArrowLeft";
          CharacterController.KeyDown "ArrowRight";
          CharacterController.KeyDown "ArrowLeft";
          CharacterController.KeyUp "ArrowRight";
          CharacterController.KeyDown "a"]).
Proof.
  apply arrow_key_pressed_iff_held.
  - repeat constructor.
  - now left.
  - reflexivity.
Defined.

(** A bare "Which player did you mean?" lists nobody. *)
Lemma question_without_list_unresolved_witness :
  understand_node
    (reply_state
       (user_msg (txt "How many goals did Daicos kick in 2025?")
                 daicos_entities)
       (txt "Which player did you mean?") (txt "Nick") None)
  = None.
Proof.
  apply (question_without_list_unresolved
           _ (assistant_msg (txt "Which player did you mean?"))).
  - reflexivity.
  - left. reflexivity.
Defined.

(** The Daicos question after a greeting, with no user turn stored. *)
Lemma resolved_without_stored_context_witness :
  exists state' matched_candidate,
    understand_node
      {| conversation_history :=
           [assistant_msg (txt "Hello"); assistant_msg daicos_question];
         user_query := txt "Nick";
         entities := None;
         intent := None;
         requires_visualization := None;
         needs_clarification := None |}
    = Some state'
    /\ entities state' = Some (fresh_entities matched_candidate).
Proof.
  destruct (understand_node _) as [state'|] eqn:Hret;
    [|vm_compute in Hret; discriminate Hret].
  destruct (resolved_without_stored_context _ _ Hret) as [mc Hmc].
  - left. repeat constructor; discriminate.
  - exists state', mc. split; [reflexivity | exact Hmc].
Defined.

End FurtherInstances.
